(** * Reproduction scheduler of [dvc/repo/reproduce.py]

    A shallow embedding of the module's four functions
    ([_reproduce_stage], [reproduce], [_reproduce], [_reproduce_stages])
    together with the part of [networkx] they call, and the properties
    of the traversal order, the force cascade and the error paths.

    Layout: Python values and exceptions; the [networkx] graph and its
    depth-first search; the effects of the scheduler; the four functions;
    then the properties, the claims C1 to C10 among them, and their
    instances on a small repository. *)

From Stdlib Require Import ZArith Lia.
From stdpp Require Import base option list gmap strings.

Local Open Scope string_scope.
Local Open Scope list_scope.
Local Open Scope nat_scope.

(** ** Python values, option bags and exceptions *)

(** Graph vertices are the stages' paths relative to the repository root. *)
Abbreviation node := string (only parsing).

(** The values that travel in the [**kwargs] option bag. *)
Inductive pyval : Type :=
| PyNone
| PyBool (b : bool)
| PyInt (z : Z)
| PyStr (s : string).

Global Instance pyval_eq_dec : EqDecision pyval.
Proof. solve_decision. Defined.

(** Python truthiness, as used by [if x:] and [not x]. *)
Definition truthy (v : pyval) : bool :=
  match v with
  | PyNone => false
  | PyBool b => b
  | PyInt z => negb (z =? 0)%Z
  | PyStr s => negb (bool_decide (s = ""))
  end.

(** [d.get(key, False)] on an option bag. *)
Definition kwargs_get (kwargs : gmap string pyval) (key : string) : pyval :=
  default (PyBool false) (kwargs !! key).

(** Instances of Python's [Exception].  [OtherException] stands for
    whatever a collaborator (stage reproduction, persistence, loading,
    graph construction) raises.  Signals that derive from [BaseException]
    only (keyboard interrupt, interpreter exit) are outside the model. *)
Inductive exn : Type :=
| ValueError
| TypeError
| KeyError (key : string)
| ReproductionError (dvc_file_name : string) (cause : exn)
| OtherException (what : string).

Global Instance exn_eq_dec : EqDecision exn.
Proof. solve_decision. Defined.

(** ** Insertion-ordered dictionaries

    [networkx] keeps nodes and adjacency in dictionaries whose iteration
    order is the insertion order; an association list with the newest key
    last carries both the content and that order. *)

Fixpoint dict_get {V : Type} (d : list (node * V)) (k : node) : option V :=
  match d with
  | [] => None
  | (k', v) :: d' => if decide (k' = k) then Some v else dict_get d' k
  end.

(** [d[k] = v]: overwrite in place, or append a new key. *)
Fixpoint dict_set {V : Type} (d : list (node * V)) (k : node) (v : V)
  : list (node * V) :=
  match d with
  | [] => [(k, v)]
  | (k', v') :: d' =>
      if decide (k' = k) then (k', v) :: d' else (k', v') :: dict_set d' k v
  end.

Definition dict_keys {V : Type} (d : list (node * V)) : list node := d.*1.

(** Adjacency: every node maps to its neighbours, in insertion order. *)
Abbreviation adjacency := (list (node * list node)) (only parsing).

(** Adding a neighbour to an inner adjacency dictionary. *)
Definition nbr_add (v : node) (nbrs : list node) : list node :=
  if decide (v ∈ nbrs) then nbrs else nbrs ++ [v].

(** ** [networkx.DiGraph]

    [_node] holds each node's ["stage"] attribute when it has one,
    [_succ] the outgoing and [_pred] the incoming adjacency. *)
Record DiGraph (A : Type) : Type := mkDiGraph {
  _node : list (node * option A);
  _succ : adjacency;
  _pred : adjacency;
}.
Arguments mkDiGraph {A} _ _ _.
Arguments _node {A} _.
Arguments _succ {A} _.
Arguments _pred {A} _.

Section Graph.
Context {A : Type}.

Definition empty_graph : DiGraph A := mkDiGraph [] [] [].

(** [G.add_node(n, **attr)] *)
Definition add_node (n : node) (attr : option A) (G : DiGraph A) : DiGraph A :=
  match dict_get (_succ G) n with
  | None =>
      mkDiGraph (_node G ++ [(n, attr)]) (_succ G ++ [(n, [])])
                (_pred G ++ [(n, [])])
  | Some _ =>
      match attr with
      | Some a => mkDiGraph (dict_set (_node G) n (Some a)) (_succ G) (_pred G)
      | None => G
      end
  end.

(** [G.add_edge(u, v)] *)
Definition add_edge (u v : node) (G : DiGraph A) : DiGraph A :=
  let G1 := match dict_get (_succ G) u with
            | None => add_node u None G | Some _ => G end in
  let G2 := match dict_get (_succ G1) v with
            | None => add_node v None G1 | Some _ => G1 end in
  mkDiGraph (_node G2)
    (dict_set (_succ G2) u (nbr_add v (default [] (dict_get (_succ G2) u))))
    (dict_set (_pred G2) v (nbr_add u (default [] (dict_get (_pred G2) v)))).

(** [G.edges()]: for every node in order, its successors in order. *)
Definition edges (G : DiGraph A) : list (node * node) :=
  '(u, nbrs) ← _succ G; (λ v, (u, v)) <$> nbrs.

(** [G.copy()]: a new graph object rebuilt node by node and edge by
    edge; node payloads are shared, not cloned. *)
Definition copy (G : DiGraph A) : DiGraph A :=
  foldl (λ H '(u, v), add_edge u v H)
        (foldl (λ H '(n, a), add_node n a H) empty_graph (_node G))
        (edges G).

(** [G.reverse(copy=False)] exchanges the two adjacency dictionaries of
    the object it is called on (where the library returns a read-only
    reversed view instead, the adjacency seen through the view is the
    same). *)
Definition reverse_in_place (G : DiGraph A) : DiGraph A :=
  mkDiGraph (_node G) (_pred G) (_succ G).

(** [G.in_degree(n)] *)
Definition in_degree (G : DiGraph A) (n : node) : nat :=
  length (default [] (dict_get (_pred G) n)).

(** [nx.get_node_attributes(G, "stage")] *)
Definition get_node_attributes (G : DiGraph A) : gmap node A :=
  foldl (λ m '(n, a), match a with Some s => <[n := s]> m | None => m end)
        ∅ (_node G).
End Graph.

(** ** Depth-first search ([networkx.dfs_labeled_edges])

    The library's search is a loop over an explicit stack:
<<
    visited = set()
    if depth_limit is None: depth_limit = len(G)
    for start in nodes:
        if start in visited: continue
        yield start, start, 'forward'
        visited.add(start)
        stack = [(start, depth_limit, iter(G[start]))]
        while stack:
            parent, depth_now, children = stack[-1]
            try:
                child = next(children)
                if child in visited:
                    yield parent, child, 'nontree'
                else:
                    yield parent, child, 'forward'
                    visited.add(child)
                    if depth_now > 1:
                        stack.append((child, depth_now - 1, iter(G[child])))
            except StopIteration:
                stack.pop()
                if stack:
                    yield stack[-1][0], parent, 'reverse'
        yield start, start, 'reverse'
>>
    [dfs_postorder_nodes] keeps the second node of the edges labelled
    ['reverse'], [dfs_preorder_nodes] of those labelled ['forward'].
    Subscripting [G] with a node it does not have raises [KeyError].

    The search is a generator.  Nothing alters the graph while the
    scheduler consumes it, so what it yields, and the exception it may end
    with, are computed up front. *)

Inductive label : Type := forward | nontree | reverse.

Global Instance label_eq_dec : EqDecision label.
Proof. solve_decision. Defined.

Abbreviation labeled_edge := (node * node * label)%type (only parsing).

(** A stack entry: the parent, the depth still allowed below it, and
    what is left of [iter(G[parent])]. *)
Abbreviation frame := (node * nat * list node)%type (only parsing).

(** How a run of the search ends: normally, with the visited set, or
    with an exception. *)
Inductive dfs_end : Type :=
| Finished (visited : gset node)
| Failed (e : exn).

(** The event emitted when [parent] is popped: the loop reports it only
    while the stack is still non-empty. *)
Definition pop_event (rest : list frame) (parent : node) : list labeled_edge :=
  match rest with
  | [] => []
  | (p, _, _) :: _ => [(p, parent, reverse)]
  end.

(** The [while stack:] loop.  Each unit of fuel pays for one iteration;
    the head of [stack] is its top. *)
Fixpoint dfs_while (fuel : nat) (adj : adjacency) (visited : gset node)
    (stack : list frame) : option (list labeled_edge * dfs_end) :=
  match fuel with
  | O => None
  | S fuel' =>
      match stack with
      | [] => Some ([], Finished visited)
      | (parent, depth_now, []) :: rest =>
          '(evs, e) ← dfs_while fuel' adj visited rest;
          Some (pop_event rest parent ++ evs, e)
      | (parent, depth_now, child :: children) :: rest =>
          let stack' := (parent, depth_now, children) :: rest in
          if decide (child ∈ visited) then
            '(evs, e) ← dfs_while fuel' adj visited stack';
            Some ((parent, child, nontree) :: evs, e)
          else
            let visited' := {[child]} ∪ visited in
            if decide (1 < depth_now) then
              match dict_get adj child with
              | None => Some ([(parent, child, forward)], Failed (KeyError child))
              | Some grandchildren =>
                  '(evs, e) ← dfs_while fuel' adj visited'
                                 ((child, depth_now - 1, grandchildren) :: stack');
                  Some ((parent, child, forward) :: evs, e)
              end
            else
              '(evs, e) ← dfs_while fuel' adj visited' stack';
              Some ((parent, child, forward) :: evs, e)
      end
  end.

(** The [for start in nodes:] loop around it. *)
Fixpoint dfs_starts (fuel : nat) (adj : adjacency) (depth_limit : nat)
    (nodes : list node) (visited : gset node)
  : option (list labeled_edge * dfs_end) :=
  match nodes with
  | [] => Some ([], Finished visited)
  | start :: nodes' =>
      if decide (start ∈ visited) then
        dfs_starts fuel adj depth_limit nodes' visited
      else
        match dict_get adj start with
        | None => Some ([(start, start, forward)], Failed (KeyError start))
        | Some children =>
            '(evs, e) ← dfs_while fuel adj ({[start]} ∪ visited)
                           [(start, depth_limit, children)];
            match e with
            | Failed ex => Some ((start, start, forward) :: evs, Failed ex)
            | Finished visited' =>
                '(evs', e') ← dfs_starts fuel adj depth_limit nodes' visited';
                Some ((start, start, forward) :: evs
                        ++ (start, start, reverse) :: evs', e')
            end
        end
  end.

(** Number of loop iterations that is always enough: two per node and
    one per adjacency entry, plus one. *)
Definition node_weight (adj : adjacency) (n : node) : nat :=
  2 + length (default [] (dict_get adj n)).

Definition dfs_fuel (adj : adjacency) : nat :=
  S (sum_list (node_weight adj <$> dict_keys adj)).

(** A generator, unrolled: the values it yields and, when the iteration
    stops with an exception instead of running out, that exception. *)
Record generator (T : Type) : Type := mkGen {
  yields : list T;
  ending : option exn;
}.
Arguments mkGen {T} _ _.
Arguments yields {T} _.
Arguments ending {T} _.

Definition select_nodes (wanted : label) (evs : list labeled_edge) : list node :=
  (λ e : labeled_edge, e.1.2) <$> filter (λ e : labeled_edge, e.2 = wanted) evs.

Section Dfs.
Context {A : Type}.

(** [nx.dfs_labeled_edges(G, source)] with [depth_limit] left at its
    default [len(G)]; [source = None] starts from every node of [G]. *)
Definition dfs_labeled_edges_run (G : DiGraph A) (source : option node)
  : option (list labeled_edge * dfs_end) :=
  let nodes := match source with
               | None => dict_keys (_node G)
               | Some s => [s]
               end in
  dfs_starts (dfs_fuel (_succ G)) (_succ G) (length (_node G)) nodes ∅.

(** The run always returns ([dfs_labeled_edges_run_total] below), so
    the last case never applies. *)
Definition dfs_labeled_edges (G : DiGraph A) (source : option node)
  : generator labeled_edge :=
  match dfs_labeled_edges_run G source with
  | Some (evs, Finished _) => mkGen evs None
  | Some (evs, Failed ex) => mkGen evs (Some ex)
  | None => mkGen [] None
  end.

(** [(v for u, v, d in edges if d == wanted)] *)
Definition select (wanted : label) (g : generator labeled_edge)
  : generator node :=
  mkGen (select_nodes wanted (yields g)) (ending g).

(** [nx.dfs_postorder_nodes(G, source)] *)
Definition dfs_postorder_nodes (G : DiGraph A) (source : option node)
  : generator node :=
  select reverse (dfs_labeled_edges G source).

(** [nx.dfs_preorder_nodes(G, source)] *)
Definition dfs_preorder_nodes (G : DiGraph A) (source : option node)
  : generator node :=
  select forward (dfs_labeled_edges G source).
End Dfs.

(** ** The scheduler's effects

    The scheduler talks to collaborators that live outside this module:
    the [Stage] class, the repository object [self], the logger.  Their
    code acts on an external world [W]; the scheduler only sequences the
    calls.  A call can return or raise.  Graph objects are kept in a
    store and handled by reference, so that building one graph from
    another and altering it in place can be told apart from altering the
    original; the collaborators hold no reference to them.  Every
    interaction with a collaborator is recorded, in order, in a trace. *)

Inductive outcome (T : Type) : Type :=
| Ok (v : T)
| Raise (e : exn).
Arguments Ok {T} _.
Arguments Raise {T} _.

(** Attributes and methods of [dvc.stage.Stage] used by the scheduler. *)
Class StageClass (W Stage : Type) : Type := {
  locked : Stage → bool;
  relpath : Stage → string;
  path : Stage → string;
  (** [stage.reproduce] applied to the option bag: an updated stage, or
      nothing *)
  stage_reproduce : Stage → gmap string pyval → W → W * outcome (option Stage);
  (** [stage.dump()] *)
  stage_dump : Stage → W → W * outcome ();
  (** [Stage.load(repo, target)], for the repository of the run *)
  Stage_load : option string → W → W * outcome Stage;
}.

(** What the scheduler uses of the repository object [self], of
    [os.path] and of [dvc.utils]. *)
Record Repo (W Stage : Type) : Type := mkRepo {
  root_dir : string;
  (** [self.config.config[config.SECTION_CORE]] *)
  config_core : gmap string pyval;
  (** [config.SECTION_CORE_INTERACTIVE] *)
  SECTION_CORE_INTERACTIVE : string;
  (** [self.graph(from_directory=...)[1]] *)
  repo_graph : option string → W → W * outcome (DiGraph Stage);
  (** [self._get_pipeline(node)] *)
  repo_get_pipeline : node → W → W * outcome (DiGraph Stage);
  (** [self.pipelines()] *)
  repo_pipelines : W → W * outcome (list (DiGraph Stage));
  (** entering and leaving [with self.state:] *)
  state_enter : W → W;
  state_exit : W → W;
  os_path_isdir : W → string → bool;
  os_path_join : string → string → string;
  utils_relpath : string → string → string;
}.
Arguments root_dir {W Stage} _.
Arguments config_core {W Stage} _.
Arguments SECTION_CORE_INTERACTIVE {W Stage} _.
Arguments repo_graph {W Stage} _ _ _.
Arguments repo_get_pipeline {W Stage} _ _ _.
Arguments repo_pipelines {W Stage} _ _.
Arguments state_enter {W Stage} _ _.
Arguments state_exit {W Stage} _ _.
Arguments os_path_isdir {W Stage} _ _ _.
Arguments os_path_join {W Stage} _ _ _.
Arguments utils_relpath {W Stage} _ _ _.

(** One entry of the trace per interaction. *)
Inductive event (Stage : Type) : Type :=
| LogWarning (msg : string)
| StageReproduce (stage : Stage) (kwargs : gmap string pyval)
| StageDump (stage : Stage)
| StageLoad (target : option string)
| ConfigRead
| RepoGraph (from_directory : option string)
| RepoGetPipeline (n : node)
| RepoPipelines
| StateEnter
| StateExit.
Arguments LogWarning {Stage} _.
Arguments StageReproduce {Stage} _ _.
Arguments StageDump {Stage} _.
Arguments StageLoad {Stage} _.
Arguments ConfigRead {Stage}.
Arguments RepoGraph {Stage} _.
Arguments RepoGetPipeline {Stage} _.
Arguments RepoPipelines {Stage}.
Arguments StateEnter {Stage}.
Arguments StateExit {Stage}.

Record state (W Stage : Type) : Type := mkState {
  world : W;
  graphs : list (DiGraph Stage);
  trace : list (event Stage);
}.
Arguments mkState {W Stage} _ _ _.
Arguments world {W Stage} _.
Arguments graphs {W Stage} _.
Arguments trace {W Stage} _.

(** Computations of the scheduler: state passing with exceptions. *)
Definition M (W Stage T : Type) : Type :=
  state W Stage → state W Stage * outcome T.

Section Monad.
Context {W Stage : Type}.
Abbreviation M' := (M W Stage) (only parsing).

Definition pure {T} (v : T) : M' T := λ σ, (σ, Ok v).

Definition bind {T U} (m : M' T) (k : T → M' U) : M' U :=
  λ σ, match m σ with
       | (σ', Ok v) => k v σ'
       | (σ', Raise e) => (σ', Raise e)
       end.

Definition raise {T} (e : exn) : M' T := λ σ, (σ, Raise e).

(** [try: m  except Exception as ex: handler ex] *)
Definition try_except {T} (m : M' T) (handler : exn → M' T) : M' T :=
  λ σ, match m σ with
       | (σ', Ok v) => (σ', Ok v)
       | (σ', Raise e) => handler e σ'
       end.

(** A call to a collaborator: it is recorded, then it acts on the
    world. *)
Definition call {T} (ev : event Stage) (f : W → W * outcome T) : M' T :=
  λ σ, let '(w, r) := f (world σ) in
       (mkState w (graphs σ) (trace σ ++ [ev]), r).

(** An interaction that only leaves a record. *)
Definition emit (ev : event Stage) : M' () :=
  λ σ, (mkState (world σ) (graphs σ) (trace σ ++ [ev]), Ok ()).

(** Reading the world. *)
Definition observe {T} (f : W → T) : M' T := λ σ, (σ, Ok (f (world σ))).

(** [with manager: body]: the exit runs whether or not the body
    raises, and the body's outcome is the statement's. *)
Definition with_ {T} (ev_in ev_out : event Stage) (enter exit : W → W)
    (body : M' T) : M' T :=
  λ σ, let σ1 := mkState (enter (world σ)) (graphs σ) (trace σ ++ [ev_in]) in
       let '(σ2, r) := body σ1 in
       (mkState (exit (world σ2)) (graphs σ2) (trace σ2 ++ [ev_out]), r).

(** *** Graph objects *)

(** A new object holding [G]; the result is the reference to it. *)
Definition graph_new (G : DiGraph Stage) : M' nat :=
  λ σ, (mkState (world σ) (graphs σ ++ [G]) (trace σ),
        Ok (length (graphs σ))).

(** The object behind a reference.  Python has no dangling
    references; reading one is an interpreter failure. *)
Definition graph_read (r : nat) : M' (DiGraph Stage) :=
  λ σ, match graphs σ !! r with
       | Some G => (σ, Ok G)
       | None => (σ, Raise (OtherException "SystemError"))
       end.

(** [G.copy()] *)
Definition graph_copy (r : nat) : M' nat :=
  bind (graph_read r) (λ G, graph_new (copy G)).

(** [G.reverse(copy=False)]: the object itself is turned around and
    returned. *)
Definition graph_reverse_in_place (r : nat) : M' nat :=
  bind (graph_read r) (λ G σ,
    (mkState (world σ) (<[r := reverse_in_place G]> (graphs σ)) (trace σ),
     Ok r)).
End Monad.

Declare Scope sched_scope.
Delimit Scope sched_scope with sched.
Bind Scope sched_scope with M.
Notation "x ← m ; k" := (bind m (λ x, k))
  (at level 20, m at level 100, k at level 200, only parsing) : sched_scope.
Notation "' x ← m ; k" := (bind m (λ x, k))
  (at level 20, x pattern, m at level 100, k at level 200, only parsing)
  : sched_scope.
Notation "m ;; k" := (bind m (λ _, k))
  (at level 100, k at level 200, only parsing, right associativity)
  : sched_scope.

(** ** The module [dvc/repo/reproduce.py] *)

(** Binding a keyword parameter: a call that unpacks the bag into a
    function declared [def f(..., name=False, **kwargs)] takes [name] out
    of the bag.  The bag itself is rebuilt for every call, so what the callee
    does to its own copy does not reach the caller's. *)
Definition keyword (name : string) (kwargs : gmap string pyval)
  : pyval * gmap string pyval :=
  (kwargs_get kwargs name, delete name kwargs).

(** [not target] for a target that is [None] or a path. *)
Definition no_target (target : option string) : bool :=
  match target with
  | None => true
  | Some t => bool_decide (t = "")
  end.

Section Scheduler.
Context {W Stage : Type} `{!StageClass W Stage}.
Local Open Scope sched_scope.

(** [stages[node]] *)
Definition subscript (stages : gmap node Stage) (n : node) : M W Stage Stage :=
  match stages !! n with
  | Some stage => pure stage
  | None => raise (KeyError n)
  end.

Definition locked_warning (stage : Stage) : string :=
  "DVC-file '" +:+ relpath stage
    +:+ "' is locked. Its dependencies are not going to be reproduced.".

(** Lines 13-29.  A stage object returned by [stage.reproduce] is
    truthy; only [None] takes the early return. *)
Definition _reproduce_stage (stages : gmap node Stage) (n : node)
    (kwargs : gmap string pyval) : M W Stage (list Stage) :=
  stage ← subscript stages n;
  (if locked stage then emit (LogWarning (locked_warning stage)) else pure ());;
  stage ← call (StageReproduce stage kwargs) (stage_reproduce stage kwargs);
  match stage with
  | None => pure []
  | Some stage =>
      (if negb (truthy (kwargs_get kwargs "dry"))
       then call (StageDump stage) (stage_dump stage)
       else pure ());;
      pure [stage]
  end.

(** Lines 157-170: the body of the loop, for the node [n]. *)
Definition visit (stages : gmap node Stage) (ignore_build_cache : pyval)
    (n : node) (kwargs : gmap string pyval) (result : list Stage)
  : M W Stage (gmap string pyval * list Stage) :=
  try_except
    (ret ← _reproduce_stage stages n kwargs;
     let kwargs :=
       if negb (length ret =? 0)%nat && truthy ignore_build_cache
       then <["force" := PyBool true]> kwargs
       else kwargs in
     pure (kwargs, result ++ ret))
    (λ ex, stage ← subscript stages n;
           raise (ReproductionError (relpath stage) ex)).

(** Lines 155-171: the loop over the traversal.  [pipeline] is what
    the generator has left to yield and [stop] how it ends. *)
Fixpoint reproduce_pipeline (stages : gmap node Stage)
    (ignore_build_cache : pyval) (pipeline : list node) (stop : option exn)
    (kwargs : gmap string pyval) (result : list Stage)
  : M W Stage (list Stage) :=
  match pipeline with
  | [] =>
      match stop with
      | Some ex => raise ex
      | None => pure result
      end
  | n :: pipeline' =>
      '(kwargs, result) ← visit stages ignore_build_cache n kwargs result;
      reproduce_pipeline stages ignore_build_cache pipeline' stop kwargs result
  end.

(** Lines 143-153: the traversal order. *)
Definition derive_pipeline (G : nat) (n : node) (downstream : pyval)
  : M W Stage (generator node) :=
  if truthy downstream then
    H ← graph_copy G;
    H ← graph_reverse_in_place H;
    H ← graph_read H;
    pure (dfs_preorder_nodes H (Some n))
  else
    G ← graph_read G;
    pure (dfs_postorder_nodes G (Some n)).

(** Lines 103-171. *)
Definition _reproduce_stages (G : nat) (stages : gmap node Stage) (n : node)
    (downstream ignore_build_cache : pyval) (kwargs : gmap string pyval)
  : M W Stage (list Stage) :=
  pipeline ← derive_pipeline G n downstream;
  reproduce_pipeline stages ignore_build_cache
    (yields pipeline) (ending pipeline) kwargs [].

(** Lines 86-100. *)
Definition _reproduce (self : Repo W Stage) (target : option string)
    (single_item : pyval) (kwargs : gmap string pyval)
  : M W Stage (list Stage) :=
  stage ← call (StageLoad target) (Stage_load target);
  G ← call (RepoGraph None) (repo_graph self None);
  G ← graph_new G;
  Gv ← graph_read G;
  let stages := get_node_attributes Gv in
  let n := utils_relpath self (path stage) (root_dir self) in
  if truthy single_item then
    _reproduce_stage stages n kwargs
  else
    let '(downstream, kwargs) := keyword "downstream" kwargs in
    let '(ignore_build_cache, kwargs) := keyword "ignore_build_cache" kwargs in
    _reproduce_stages G stages n downstream ignore_build_cache kwargs.

(** Lines 55-75: the starting points. *)
Definition resolve_targets (self : Repo W Stage) (target : option string)
    (recursive pipeline all_pipelines : bool)
  : M W Stage (list (option string)) :=
  is_dir ← (if recursive then
              match target with
              | Some t => observe (λ w, os_path_isdir self w t)
              | None => raise TypeError
              end
            else pure false);
  if is_dir then
    G ← call (RepoGraph target) (repo_graph self target);
    let order := dfs_postorder_nodes G None in
    let dir_targets :=
      (λ n, Some (os_path_join self (root_dir self) n)) <$> yields order in
    match ending order with
    | Some ex => raise ex
    | None => pure dir_targets
    end
  else if pipeline || all_pipelines then
    pipelines ←
      (if pipeline then
         stage ← call (StageLoad target) (Stage_load target);
         let n := utils_relpath self (path stage) (root_dir self) in
         G ← call (RepoGetPipeline n) (repo_get_pipeline self n);
         pure [G]
       else
         call RepoPipelines (repo_pipelines self));
    pure (concat
           ((λ G, (λ n, Some (os_path_join self (root_dir self) n)) <$>
                    filter (λ n, in_degree G n = 0) (dict_keys (_node G)))
              <$> pipelines))
  else
    pure [target].

(** Lines 79-81: one traversal per starting point. *)
Fixpoint reproduce_targets (self : Repo W Stage) (targets : list (option string))
    (kwargs : gmap string pyval) (ret : list Stage)
  : M W Stage (list Stage) :=
  match targets with
  | [] => pure ret
  | target :: targets' =>
      stages ← (let '(single_item, kwargs) := keyword "single_item" kwargs in
                _reproduce self target single_item kwargs);
      reproduce_targets self targets' kwargs (ret ++ stages)
  end.

(** Lines 33-83, the function under the [scm_context] decorator (the
    decorator is defined in another module). *)
Definition reproduce (self : Repo W Stage) (target : option string)
    (recursive pipeline all_pipelines : bool) (kwargs : gmap string pyval)
  : M W Stage (list Stage) :=
  if no_target target && negb all_pipelines then raise ValueError
  else
    let interactive := kwargs_get kwargs "interactive" in
    kwargs ←
      (if negb (truthy interactive) then
         emit ConfigRead;;
         pure (<["interactive" :=
                  default (PyBool false)
                    (config_core self !! SECTION_CORE_INTERACTIVE self)]> kwargs)
       else pure kwargs);
    targets ← resolve_targets self target recursive pipeline all_pipelines;
    with_ StateEnter StateExit (state_enter self) (state_exit self)
      (reproduce_targets self targets kwargs []).
End Scheduler.

(** ** Example graphs *)

(** Building a graph the way the repository does: every stage is a node
    and has an edge to each stage it depends on. *)
Definition graph_of {A : Type} (nodes : list (node * option A))
    (deps : list (node * node)) : DiGraph A :=
  foldl (λ H '(u, v), add_edge u v H)
        (foldl (λ H '(n, a), add_node n a H) empty_graph nodes) deps.

(** C depends on B, B depends on A. *)
Definition chain {A : Type} : DiGraph A :=
  graph_of [("A", None); ("B", None); ("C", None)] [("B", "A"); ("C", "B")].

(** ** A small repository to run the scheduler on

    The world is a journal of what was run and what was persisted.  A
    stage reports a change when it is marked as changed or when it is
    forced; a stage marked as failing raises. *)

Record toy_stage : Type := ToyStage {
  toy_path : string;
  toy_locked : bool;
  toy_changed : bool;
  toy_fails : bool;
}.

Definition toy_reproduce (st : toy_stage) (kwargs : gmap string pyval)
    (w : list string) : list string * outcome (option toy_stage) :=
  if toy_fails st then (w, Raise (OtherException (toy_path st)))
  else if toy_changed st || truthy (kwargs_get kwargs "force")
       then (w ++ ["run " +:+ toy_path st], Ok (Some st))
       else (w, Ok None).

Definition toy_dump (st : toy_stage) (w : list string)
  : list string * outcome () :=
  (w ++ ["dump " +:+ toy_path st], Ok ()).

Definition toy_load (target : option string) (w : list string)
  : list string * outcome toy_stage :=
  match target with
  | Some t => (w, Ok (ToyStage t false false false))
  | None => (w, Raise TypeError)
  end.

Global Instance toy_class : StageClass (list string) toy_stage := {|
  locked := toy_locked;
  relpath := toy_path;
  path := toy_path;
  stage_reproduce := toy_reproduce;
  stage_dump := toy_dump;
  Stage_load := toy_load;
|}.

(** A repository whose graph is [G], rooted at the working directory. *)
Definition toy_repo (G : DiGraph toy_stage) (core : gmap string pyval)
  : Repo (list string) toy_stage := {|
  root_dir := "";
  config_core := core;
  SECTION_CORE_INTERACTIVE := "interactive";
  repo_graph := λ _ w, (w, Ok G);
  repo_get_pipeline := λ _ w, (w, Ok G);
  repo_pipelines := λ w, (w, Ok [G]);
  state_enter := λ w, w;
  state_exit := λ w, w;
  os_path_isdir := λ _ _, false;
  os_path_join := λ _ n, n;
  utils_relpath := λ p _, p;
|}.

(** An unlocked stage that has changed. *)
Definition changed (p : string) : toy_stage := ToyStage p false true false.
(** An unlocked stage that has not changed. *)
Definition unchanged (p : string) : toy_stage := ToyStage p false false false.
(** A stage whose reproduction raises. *)
Definition failing (p : string) : toy_stage := ToyStage p false true true.

(** The paths of the stages reproduced, in the order of the trace. *)
Definition reproduced_paths (tr : list (event toy_stage)) : list string :=
  omap (λ ev, match ev with
              | StageReproduce st _ => Some (toy_path st)
              | _ => None
              end) tr.

(** The chain, with a stage on every node. *)
Definition toy_chain (a b c : toy_stage) : DiGraph toy_stage :=
  graph_of [("A", Some a); ("B", Some b); ("C", Some c)]
           [("B", "A"); ("C", "B")].

(** The diamond: D depends on B and C, which both depend on A. *)
Definition toy_diamond : DiGraph toy_stage :=
  graph_of [("A", Some (changed "A")); ("B", Some (changed "B"));
            ("C", Some (changed "C")); ("D", Some (changed "D"))]
           [("B", "A"); ("C", "A"); ("D", "B"); ("D", "C")].

(** Two stages that do not depend on each other. *)
Definition toy_pair (x y : toy_stage) : DiGraph toy_stage :=
  graph_of [("X", Some x); ("Y", Some y)] [].

(** The state a run starts in: an empty journal, the given graph
    objects, an empty trace. *)
Definition start (gs : list (DiGraph toy_stage)) : state (list string) toy_stage :=
  mkState [] gs [].

(** * Properties *)

(** ** The search always terminates within its fuel *)

Lemma dict_get_Some_keys {V : Type} (d : list (node * V)) (k : node) (v : V) :
  dict_get d k = Some v → k ∈ dict_keys d.
Proof.
  unfold dict_keys. induction d as [|[k' v'] d IH]; simpl; [done|].
  case_decide; intros Hg.
  - subst. apply list_elem_of_here.
  - apply list_elem_of_further. auto.
Qed.

Lemma dict_get_keys_Some {V : Type} (d : list (node * V)) (k : node) :
  k ∈ dict_keys d → is_Some (dict_get d k).
Proof.
  unfold dict_keys. induction d as [|[k' v'] d IH]; simpl.
  - intros H. by apply elem_of_nil in H.
  - intros H. case_decide; [eauto|].
    apply elem_of_cons in H as [H|H]; [congruence|auto].
Qed.

Section DfsTermination.
Variable adj : adjacency.

Definition unvisited_weight (V : gset node) (l : list node) : nat :=
  sum_list ((λ n, if decide (n ∈ V) then 0 else node_weight adj n) <$> l).

Definition stack_weight (S : list frame) : nat :=
  sum_list ((λ f : frame, 1 + length f.2) <$> S).

Definition dfs_measure (V : gset node) (S : list frame) : nat :=
  stack_weight S + unvisited_weight V (dict_keys adj).

Lemma stack_weight_cons (n : node) (d : nat) (cs : list node) (S : list frame) :
  stack_weight ((n, d, cs) :: S) = 1 + length cs + stack_weight S.
Proof. reflexivity. Qed.

Lemma unvisited_weight_mono (V V' : gset node) (l : list node) :
  V ⊆ V' → unvisited_weight V' l ≤ unvisited_weight V l.
Proof.
  intros HV. unfold unvisited_weight.
  induction l as [|x l IH]; csimpl; [lia|].
  repeat case_decide; try lia. set_solver.
Qed.

Lemma unvisited_weight_drop (V : gset node) (c : node) (l : list node) :
  c ∈ l → c ∉ V →
  unvisited_weight ({[c]} ∪ V) l + node_weight adj c ≤ unvisited_weight V l.
Proof.
  intros Hin HV. induction l as [|x l IH]; [by apply elem_of_nil in Hin|].
  unfold unvisited_weight in *. csimpl.
  destruct (decide (x = c)) as [->|Hne].
  - pose proof (unvisited_weight_mono V ({[c]} ∪ V) l) as Hm.
    unfold unvisited_weight in Hm.
    repeat case_decide; try set_solver.
    assert (V ⊆ {[c]} ∪ V) by set_solver. specialize (Hm H1). lia.
  - apply elem_of_cons in Hin as [Hin|Hin]; [congruence|].
    specialize (IH Hin).
    repeat case_decide; try set_solver; lia.
Qed.

Lemma dfs_while_total (fuel : nat) :
  ∀ V S, dfs_measure V S < fuel → is_Some (dfs_while fuel adj V S).
Proof.
  induction fuel as [|fuel IH]; intros V S Hm; [lia|].
  simpl. destruct S as [|[[parent depth_now] [|child children]] rest];
    [by eexists|..].
  - destruct (IH V rest) as [[evs e] ->]; [|by eexists].
    unfold dfs_measure in *. rewrite stack_weight_cons in Hm. simpl in Hm. lia.
  - assert (Hlt : dfs_measure V ((parent, depth_now, children) :: rest) < fuel).
    { unfold dfs_measure in *. rewrite !stack_weight_cons in *. simpl in *. lia. }
    case_decide.
    { destruct (IH _ _ Hlt) as [[evs e] ->]. by eexists. }
    case_decide.
    + destruct (dict_get adj child) as [grandchildren|] eqn:Hg; [|by eexists].
      destruct (IH ({[child]} ∪ V)
                  ((child, depth_now - 1, grandchildren)
                     :: (parent, depth_now, children) :: rest))
        as [[evs e] ->]; [|by eexists].
      pose proof (unvisited_weight_drop V child (dict_keys adj)
                    (dict_get_Some_keys _ _ _ Hg) H) as Hd.
      unfold node_weight in Hd. rewrite Hg in Hd.
      unfold dfs_measure in *. rewrite !stack_weight_cons in *. simpl in *. lia.
    + destruct (IH ({[child]} ∪ V) ((parent, depth_now, children) :: rest))
        as [[evs e] ->]; [|by eexists].
      pose proof (unvisited_weight_mono V ({[child]} ∪ V) (dict_keys adj)) as Hd.
      assert (V ⊆ {[child]} ∪ V) as HV by set_solver. specialize (Hd HV).
      unfold dfs_measure in *. lia.
Qed.

Lemma dfs_starts_total (fuel depth_limit : nat) (nodes : list node) :
  sum_list (node_weight adj <$> dict_keys adj) < fuel →
  ∀ V, is_Some (dfs_starts fuel adj depth_limit nodes V).
Proof.
  intros Hfuel.
  induction nodes as [|start nodes IH]; intros V; simpl; [by eexists|].
  case_decide; [apply IH|].
  destruct (dict_get adj start) as [children|] eqn:Hg; [|by eexists].
  destruct (dfs_while_total fuel ({[start]} ∪ V)
              [(start, depth_limit, children)]) as [[evs e] ->].
  - pose proof (unvisited_weight_drop V start (dict_keys adj)
                  (dict_get_Some_keys _ _ _ Hg) H) as Hd.
    pose proof (unvisited_weight_mono ∅ V (dict_keys adj)) as Hm.
    assert (∅ ⊆ V) as HV by set_solver. specialize (Hm HV).
    assert (unvisited_weight ∅ (dict_keys adj)
            = sum_list (node_weight adj <$> dict_keys adj)) as He by done.
    unfold node_weight in Hd. rewrite Hg in Hd.
    unfold dfs_measure in *. rewrite stack_weight_cons.
    change (stack_weight []) with 0. simpl in *. lia.
  - simpl. destruct e as [V'|ex]; [|by eexists].
    destruct (IH V') as [[evs' e'] ->]. by eexists.
Qed.
End DfsTermination.

(** The run never exhausts its fuel: the search is total. *)
Lemma dfs_labeled_edges_run_total {A : Type} (G : DiGraph A) (source : option node) :
  is_Some (dfs_labeled_edges_run G source).
Proof. unfold dfs_labeled_edges_run, dfs_fuel. apply dfs_starts_total. lia. Qed.

Lemma select_nodes_skip (wanted l : label) (u v : node) (evs : list labeled_edge) :
  l ≠ wanted → select_nodes wanted ((u, v, l) :: evs) = select_nodes wanted evs.
Proof. intros Hl. unfold select_nodes. by rewrite filter_cons_False. Qed.

Lemma select_nodes_take (wanted : label) (u v : node) (evs : list labeled_edge) :
  select_nodes wanted ((u, v, wanted) :: evs) = v :: select_nodes wanted evs.
Proof. unfold select_nodes. by rewrite filter_cons_True. Qed.

Lemma select_nodes_app (wanted : label) (evs evs' : list labeled_edge) :
  select_nodes wanted (evs ++ evs')
  = select_nodes wanted evs ++ select_nodes wanted evs'.
Proof. unfold select_nodes. by rewrite filter_app, fmap_app. Qed.

(** A preorder from a source yields the source first. *)
Lemma dfs_preorder_source_first {A : Type} (G : DiGraph A) (n : node) :
  ∃ rest, yields (dfs_preorder_nodes G (Some n)) = n :: rest.
Proof.
  unfold dfs_preorder_nodes, dfs_labeled_edges, select.
  destruct (dfs_labeled_edges_run_total G (Some n)) as [[evs e] Hrun].
  rewrite Hrun. unfold dfs_labeled_edges_run in Hrun.
  revert Hrun. generalize (dfs_fuel (_succ G)). intros fuel Hrun.
  simpl in Hrun. rewrite decide_False in Hrun by set_solver.
  assert (∃ evs', evs = (n, n, forward) :: evs') as [evs' ->].
  { destruct (dict_get (_succ G) n); [|injection Hrun as <- _; by eexists].
    destruct (dfs_while fuel _ _ _) as [[evs1 e1]|]; [|done]. simpl in Hrun.
    destruct e1; injection Hrun as <- _; by eexists. }
  exists (select_nodes forward evs').
  destruct e; simpl; by rewrite select_nodes_take.
Qed.

(** ** Dependencies, cycles and well-formed graphs *)

(** [edge adj u v]: [v] is listed among the neighbours of [u].  In the
    repository's graph the neighbours of a stage are its dependencies. *)
Definition edge (adj : adjacency) (u v : node) : Prop :=
  ∃ nbrs, dict_get adj u = Some nbrs ∧ v ∈ nbrs.

Definition acyclic (adj : adjacency) : Prop :=
  ∀ n, ¬ tc (edge adj) n n.

(** Every neighbour is itself a node: [networkx] adds both ends of an
    edge to the graph. *)
Definition closed (adj : adjacency) : Prop :=
  ∀ u v, edge adj u v → is_Some (dict_get adj v).

(** The two dictionaries of a graph object list the same nodes. *)
Definition well_formed {A : Type} (G : DiGraph A) : Prop :=
  dict_keys (_succ G) = dict_keys (_node G) ∧ closed (_succ G).

(** In [order], whatever a node points to comes earlier than the node. *)
Definition targets_first (adj : adjacency) (order : list node) : Prop :=
  ∀ l1 x l2, order = l1 ++ x :: l2 → ∀ d, edge adj x d → d ∈ l1.

(** A ranking that strictly drops along every edge rules out cycles. *)
Lemma ranked_acyclic (adj : adjacency) (rank : node → nat) :
  (∀ u v, edge adj u v → rank v < rank u) → acyclic adj.
Proof.
  intros Hr.
  assert (∀ u v, tc (edge adj) u v → rank v < rank u) as Htc.
  { induction 1 as [u v He|u v w He _ IH]; [by apply Hr|].
    specialize (Hr _ _ He). lia. }
  intros n Hn. specialize (Htc _ _ Hn). lia.
Qed.

(** *** Graphs built with the library's operations are well-formed *)

Lemma dict_get_app {V : Type} (d d' : list (node * V)) (k : node) :
  dict_get (d ++ d') k
  = match dict_get d k with Some v => Some v | None => dict_get d' k end.
Proof.
  induction d as [|[k' v'] d IH]; simpl; [done|]. by case_decide.
Qed.

Lemma dict_get_set {V : Type} (d : list (node * V)) (k k' : node) (v : V) :
  dict_get (dict_set d k v) k'
  = if decide (k = k') then Some v else dict_get d k'.
Proof.
  induction d as [|[k0 v0] d IH]; simpl.
  - done.
  - destruct (decide (k0 = k)) as [->|Hne]; simpl.
    + by case_decide.
    + rewrite IH. repeat case_decide; congruence.
Qed.

Lemma dict_keys_set {V : Type} (d : list (node * V)) (k : node) (v : V) :
  k ∈ dict_keys d → dict_keys (dict_set d k v) = dict_keys d.
Proof.
  unfold dict_keys. induction d as [|[k0 v0] d IH]; simpl.
  - intros H. by apply elem_of_nil in H.
  - intros H. case_decide; [done|]. simpl. f_equal.
    apply IH. apply elem_of_cons in H as [H|H]; [congruence|done].
Qed.

Section WellFormed.
Context {A : Type}.
Implicit Types (G : DiGraph A).

Lemma empty_graph_well_formed : well_formed (@empty_graph A).
Proof.
  split; [done|]. intros u v (nbrs & Hg & _). discriminate.
Qed.

Lemma add_node_well_formed n attr G :
  well_formed G → well_formed (add_node n attr G).
Proof.
  intros [Hkeys Hclosed]. unfold add_node.
  destruct (dict_get (_succ G) n) as [nbrs|] eqn:Hn.
  - destruct attr as [a|]; [|done]. split; [|done]. simpl.
    rewrite dict_keys_set; [done|].
    rewrite <- Hkeys. by eapply dict_get_Some_keys.
  - split; simpl.
    + unfold dict_keys in *. by rewrite !fmap_app, Hkeys.
    + intros u v (nbrs & Hg & Hin). rewrite dict_get_app in *.
      destruct (dict_get (_succ G) u) as [nbrs'|] eqn:Hu.
      * injection Hg as <-.
        destruct (Hclosed u v) as [x ->]; [by exists nbrs'|]. by eexists.
      * simpl in Hg. case_decide; [|done]. injection Hg as <-.
        by apply elem_of_nil in Hin.
Qed.

Lemma add_node_is_node n attr G : is_Some (dict_get (_succ (add_node n attr G)) n).
Proof.
  unfold add_node. destruct (dict_get (_succ G) n) as [nbrs|] eqn:Hn.
  - destruct attr; simpl; by rewrite Hn.
  - simpl. rewrite dict_get_app, Hn. simpl. by rewrite decide_True.
Qed.

Lemma add_node_keeps_nodes n attr G x :
  is_Some (dict_get (_succ G) x) → is_Some (dict_get (_succ (add_node n attr G)) x).
Proof.
  intros [nbrs Hx]. unfold add_node.
  destruct (dict_get (_succ G) n) as [nbrs'|] eqn:Hn.
  - destruct attr; simpl; by rewrite Hx.
  - simpl. by rewrite dict_get_app, Hx.
Qed.

Lemma add_edge_well_formed u v G :
  well_formed G → well_formed (add_edge u v G).
Proof.
  intros Hwf. unfold add_edge.
  set (G1 := match dict_get (_succ G) u with
             | None => add_node u None G | Some _ => G end).
  set (G2 := match dict_get (_succ G1) v with
             | None => add_node v None G1 | Some _ => G1 end).
  assert (well_formed G1) as Hwf1.
  { unfold G1. destruct (dict_get (_succ G) u); [done|].
    by apply add_node_well_formed. }
  assert (is_Some (dict_get (_succ G1) u)) as Hu1.
  { unfold G1. destruct (dict_get (_succ G) u) eqn:Hu; [by rewrite Hu|].
    apply add_node_is_node. }
  assert (well_formed G2) as [Hkeys Hclosed].
  { unfold G2. destruct (dict_get (_succ G1) v); [done|].
    by apply add_node_well_formed. }
  assert (is_Some (dict_get (_succ G2) u)) as [nbrs_u Hu].
  { unfold G2. destruct (dict_get (_succ G1) v); [done|].
    by apply add_node_keeps_nodes. }
  assert (is_Some (dict_get (_succ G2) v)) as Hv.
  { unfold G2. destruct (dict_get (_succ G1) v) eqn:Hv; [by rewrite Hv|].
    apply add_node_is_node. }
  split; simpl.
  - rewrite dict_keys_set; [done|]. by eapply dict_get_Some_keys.
  - intros a b (nbrs & Hg & Hin). rewrite dict_get_set in *.
    assert (is_Some (dict_get (_succ G2) b)) as Hb.
    { destruct (decide (u = a)) as [->|Hne].
      - injection Hg as <-. rewrite Hu in Hin. simpl in Hin.
        unfold nbr_add in Hin. case_decide.
        + apply (Hclosed a b). by exists nbrs_u.
        + apply elem_of_app in Hin as [Hin|Hin%list_elem_of_singleton].
          * apply (Hclosed a b). by exists nbrs_u.
          * by subst.
      - apply (Hclosed a b). by exists nbrs. }
    destruct (decide (u = b)); [by eexists|done].
Qed.

Lemma graph_of_well_formed (nodes : list (node * option A))
    (deps : list (node * node)) :
  well_formed (graph_of nodes deps).
Proof.
  unfold graph_of.
  assert (∀ (l : list (node * node)) G,
            well_formed G → well_formed (foldl (λ H '(u, v), add_edge u v H) G l))
    as Hedges.
  { induction l as [|[u v] l IH]; intros G HG; simpl; [done|].
    by apply IH, add_edge_well_formed. }
  assert (∀ (l : list (node * option A)) G,
            well_formed G → well_formed (foldl (λ H '(n, a), add_node n a H) G l))
    as Hnodes.
  { induction l as [|[n a] l IH]; intros G HG; simpl; [done|].
    by apply IH, add_node_well_formed. }
  apply Hedges, Hnodes, empty_graph_well_formed.
Qed.

(** A copy is well-formed whatever it is a copy of. *)
Lemma copy_well_formed G : well_formed (copy G).
Proof. apply (graph_of_well_formed (_node G) (edges G)). Qed.
End WellFormed.

(** ** The postorder of an acyclic graph *)

Section DfsPostorder.
Variable adj : adjacency.
Variable depth_limit : nat.
Variable source : node.
Hypothesis Hclosed : closed adj.
Hypothesis Hacyclic : acyclic adj.
Hypothesis Hlimit : length (dict_keys adj) ≤ depth_limit.
Hypothesis Hsource : is_Some (dict_get adj source).

Definition stack_nodes (S : list frame) : list node := S.*1.*1.

(** Each stack entry is a neighbour of the entry below it. *)
Fixpoint chained (S : list frame) : Prop :=
  match S with
  | f2 :: rest =>
      match rest with
      | f1 :: _ => edge adj f1.1.1 f2.1.1 ∧ chained rest
      | [] => True
      end
  | [] => True
  end.

(** The depth allowance shrinks by one per stack level. *)
Fixpoint depths (S : list frame) : Prop :=
  match S with
  | f :: rest => f.1.2 + length rest = depth_limit ∧ depths rest
  | [] => True
  end.

(** [finished] is built by appending; each node added has all its
    neighbours in the list already. *)
Inductive finished_order : list node → Prop :=
| finished_nil : finished_order []
| finished_snoc L x :
    finished_order L → (∀ d, edge adj x d → d ∈ L) →
    finished_order (L ++ [x]).

Record dfs_inv (V : gset node) (S : list frame) (F : list node) : Prop := {
  inv_nodup : NoDup (stack_nodes S ++ F);
  inv_visited : ∀ x, x ∈ V ↔ x ∈ stack_nodes S ∨ x ∈ F;
  inv_frames :
    Forall (λ f : frame, ∃ done, dict_get adj f.1.1 = Some (done ++ f.2)
                                 ∧ ∀ c, c ∈ done → c ∈ V) S;
  inv_chain : chained S;
  inv_order : finished_order F;
  inv_depths : depths S;
  inv_reach : ∀ x, x ∈ V → rtc (edge adj) source x;
}.

Lemma finished_order_targets_first (L : list node) :
  finished_order L → targets_first adj L.
Proof.
  induction 1 as [|L x HL IH Hx]; intros l1 y l2 HE d Hd.
  - by destruct l1.
  - destruct l2 as [|z l2 _] using rev_ind.
    + apply app_inj_tail in HE as [-> ->]. auto.
    + change (l1 ++ y :: l2 ++ [z]) with (l1 ++ (y :: l2) ++ [z]) in HE.
      rewrite app_assoc in HE. apply app_inj_tail in HE as [-> ->].
      eapply IH; eauto.
Qed.

Lemma reach_is_node (x : node) :
  rtc (edge adj) source x → is_Some (dict_get adj x).
Proof.
  intros Hr. apply rtc_inv_r in Hr as [->|(y & _ & He)]; [done|].
  by eapply Hclosed.
Qed.

Lemma chained_tail (f : frame) (S : list frame) : chained (f :: S) → chained S.
Proof. destruct S; simpl; tauto. Qed.

Lemma chained_reach (f : frame) (S : list frame) :
  chained (f :: S) → ∀ x, x ∈ stack_nodes S → tc (edge adj) x f.1.1.
Proof.
  revert f. induction S as [|g S IH]; intros f Hc x Hx.
  - by apply elem_of_nil in Hx.
  - destruct Hc as [He Hc]. unfold stack_nodes in Hx. csimpl in Hx.
    apply elem_of_cons in Hx as [->|Hx]; [by apply tc_once|].
    eapply tc_r; [|exact He]. by apply IH.
Qed.

(** A stack of distinct nodes is no deeper than the graph is large. *)
Lemma stack_fits (l : list node) :
  NoDup l → (∀ x, x ∈ l → is_Some (dict_get adj x)) → length l ≤ depth_limit.
Proof.
  intros Hnd Hin. etrans; [|exact Hlimit].
  apply submseteq_length, NoDup_submseteq; [done|].
  intros x Hx. destruct (Hin x Hx) as [v Hv]. by eapply dict_get_Some_keys.
Qed.

Lemma inv_pop V n d rest F :
  dfs_inv V ((n, d, []) :: rest) F → dfs_inv V rest (F ++ [n]).
Proof.
  intros [Hnd Hv Hf Hc Ho Hd Hr].
  pose proof (chained_tail _ _ Hc) as Hc'.
  pose proof (chained_reach _ _ Hc) as Hcr.
  unfold stack_nodes in *. csimpl in *.
  split.
  - eapply (NoDup_Permutation_proper _ (n :: rest.*1.*1 ++ F)); [|done].
    rewrite app_assoc. rewrite (Permutation_app_comm _ [n]). done.
  - intros x. rewrite Hv. set_solver.
  - by inversion Hf.
  - done.
  - apply finished_snoc; [exact Ho|]. intros c Hedge.
    apply Forall_cons_1 in Hf as [(seen & Hg & Hseen) _]. simpl in *.
    rewrite app_nil_r in Hg. pose proof Hedge as (nbrs & Hg' & Hin).
    rewrite Hg in Hg'. injection Hg' as <-.
    apply Hseen, Hv in Hin as [Hin|Hin]; [|done].
    exfalso. apply (Hacyclic n).
    apply elem_of_cons in Hin as [->|Hin]; [by apply tc_once|].
    eapply tc_l; [exact Hedge|]. by apply Hcr.
  - by destruct Hd.
  - done.
Qed.

Lemma inv_nontree V n d c cs rest F :
  c ∈ V →
  dfs_inv V ((n, d, c :: cs) :: rest) F → dfs_inv V ((n, d, cs) :: rest) F.
Proof.
  intros HcV [Hnd Hv Hf Hc Ho Hd Hr].
  split; try done.
  apply Forall_cons_1 in Hf as [(seen & Hg & Hseen) Hf].
  apply Forall_cons; split; [|done]. simpl in *.
  exists (seen ++ [c]). split; [by rewrite <- app_assoc|].
  intros x [Hx|Hx%list_elem_of_singleton]%elem_of_app; [auto|by subst].
Qed.

Lemma inv_top_edge V n d c cs rest F :
  dfs_inv V ((n, d, c :: cs) :: rest) F → edge adj n c.
Proof.
  intros [_ _ Hf _ _ _ _].
  apply Forall_cons_1 in Hf as [(seen & Hg & _) _]. simpl in *.
  eexists. split; [exact Hg|]. set_solver.
Qed.

Lemma inv_is_node V S F x : dfs_inv V S F → x ∈ V → is_Some (dict_get adj x).
Proof. intros HI Hx. by apply reach_is_node, (inv_reach _ _ _ HI). Qed.

(** With the default limit the depth allowance never runs out. *)
Lemma inv_depth_left V n d c cs rest F :
  c ∉ V → dfs_inv V ((n, d, c :: cs) :: rest) F → 1 < d.
Proof.
  intros HcV HI. pose proof (inv_top_edge _ _ _ _ _ _ _ HI) as He.
  pose proof HI as [Hnd Hv _ _ _ [Hd _] Hr]. simpl in Hd.
  assert (length (c :: stack_nodes ((n, d, c :: cs) :: rest)) ≤ depth_limit)
    as Hlen.
  { apply stack_fits.
    - apply NoDup_cons. split; [|by apply NoDup_app in Hnd as [? _]].
      intros Hin. apply HcV, Hv. by left.
    - intros x [->|Hx]%elem_of_cons; [by eapply Hclosed|].
      eapply inv_is_node; [exact HI|]. apply Hv. by left. }
  unfold stack_nodes in Hlen. simpl in Hlen. rewrite !length_fmap in Hlen. lia.
Qed.

Lemma inv_push V n d c cs gc rest F :
  c ∉ V → 1 < d → dict_get adj c = Some gc →
  dfs_inv V ((n, d, c :: cs) :: rest) F →
  dfs_inv ({[c]} ∪ V) ((c, d - 1, gc) :: (n, d, cs) :: rest) F.
Proof.
  intros HcV Hdepth Hgc HI.
  pose proof (inv_top_edge _ _ _ _ _ _ _ HI) as He.
  destruct HI as [Hnd Hv Hf Hc Ho Hd Hr].
  split.
  - change (NoDup (c :: stack_nodes ((n, d, c :: cs) :: rest) ++ F)).
    apply NoDup_cons. split; [|done].
    intros Hin. apply HcV, Hv. by apply elem_of_app in Hin.
  - intros x. change (stack_nodes ((c, d - 1, gc) :: (n, d, cs) :: rest))
      with (c :: stack_nodes ((n, d, c :: cs) :: rest)).
    rewrite elem_of_union, elem_of_singleton, elem_of_cons, Hv. tauto.
  - apply Forall_cons_1 in Hf as [(seen & Hg & Hseen) Hf]. simpl in *.
    apply Forall_cons; split; [|apply Forall_cons; split].
    + exists []. split; [done|]. intros x Hx. by apply elem_of_nil in Hx.
    + exists (seen ++ [c]). split; [by rewrite <- app_assoc|]. set_solver.
    + eapply Forall_impl; [exact Hf|].
      intros f (seen' & Hg' & Hseen'). exists seen'. set_solver.
  - split; [exact He|exact Hc].
  - done.
  - destruct Hd as [Hd Hds]. simpl in *. repeat split; [lia|lia|done].
  - intros x [->%elem_of_singleton|Hx]%elem_of_union; [|auto].
    eapply rtc_r; [|exact He]. apply Hr, Hv. left. apply list_elem_of_here.
Qed.

(** The nodes a run reports as finished, the bottom of the stack
    included: the loop leaves that one for its caller to report. *)
Definition bottom (S : list frame) : list node :=
  match last S with
  | Some f => [f.1.1]
  | None => []
  end.

Lemma bottom_children p d cs cs' rest :
  bottom ((p, d, cs) :: rest) = bottom ((p, d, cs') :: rest).
Proof. unfold bottom. by destruct rest. Qed.

Lemma bottom_push f g rest : bottom (f :: g :: rest) = bottom (g :: rest).
Proof. done. Qed.

Lemma dfs_while_postorder (fuel : nat) :
  ∀ V S F evs e,
    dfs_inv V S F → dfs_while fuel adj V S = Some (evs, e) →
    ∃ V', e = Finished V'
          ∧ dfs_inv V' [] (F ++ select_nodes reverse evs ++ bottom S).
Proof.
  induction fuel as [|fuel IH]; intros V S F evs e HI Hrun; [done|].
  simpl in Hrun.
  destruct S as [|[[parent depth_now] [|child children]] rest].
  - injection Hrun as <- <-. exists V. split; [done|].
    by rewrite !app_nil_r.
  - destruct (dfs_while fuel adj V rest) as [[evs' e']|] eqn:Hrest; [|done].
    simpl in Hrun. injection Hrun as <- <-.
    apply inv_pop in HI. destruct (IH _ _ _ _ _ HI Hrest) as (V' & -> & HI').
    exists V'. split; [done|].
    destruct rest as [|[[p dp] cp] rest]; simpl.
    + destruct fuel; [done|]. simpl in Hrest. injection Hrest as <- _.
      unfold bottom in *. simpl in *. by rewrite app_nil_r in HI'.
    + rewrite <- app_assoc in HI'. exact HI'.
  - case_decide as Hin.
    + destruct (dfs_while fuel adj V ((parent, depth_now, children) :: rest))
        as [[evs' e']|] eqn:Hrest; [|done].
      simpl in Hrun. injection Hrun as <- <-.
      eapply inv_nontree in HI; [|done].
      destruct (IH _ _ _ _ _ HI Hrest) as (V' & -> & HI').
      exists V'. split; [done|].
      by rewrite select_nodes_skip, (bottom_children _ _ _ children).
    + pose proof (inv_depth_left _ _ _ _ _ _ _ Hin HI) as Hdepth.
      pose proof (inv_top_edge _ _ _ _ _ _ _ HI) as He.
      case_decide; [|done].
      destruct (Hclosed _ _ He) as [gc Hgc]. rewrite Hgc in Hrun.
      destruct (dfs_while fuel adj ({[child]} ∪ V)
                  ((child, depth_now - 1, gc)
                     :: (parent, depth_now, children) :: rest))
        as [[evs' e']|] eqn:Hrest; [|done].
      simpl in Hrun. injection Hrun as <- <-.
      eapply inv_push in HI; [|done..].
      destruct (IH _ _ _ _ _ HI Hrest) as (V' & -> & HI').
      exists V'. split; [done|].
      rewrite bottom_push in HI'.
      by rewrite select_nodes_skip, (bottom_children _ _ _ children).
Qed.

(** What a forward traversal from [source] yields. *)
Theorem dfs_postorder_source (fuel : nat) (evs : list labeled_edge) (e : dfs_end) :
  dfs_starts fuel adj depth_limit [source] ∅ = Some (evs, e) →
  ∃ V order,
    e = Finished V
    ∧ select_nodes reverse evs = order ++ [source]
    ∧ NoDup (order ++ [source])
    ∧ targets_first adj (order ++ [source])
    ∧ ∀ x, x ∈ order ++ [source] ↔ rtc (edge adj) source x.
Proof.
  simpl. case_decide as Hin; [set_solver|].
  destruct Hsource as [children Hchildren]. rewrite Hchildren.
  destruct (dfs_while fuel adj ({[source]} ∪ ∅) [(source, depth_limit, children)])
    as [[evs' e']|] eqn:Hrun; [|done].
  simpl. intros Hres.
  assert (dfs_inv ({[source]} ∪ ∅) [(source, depth_limit, children)] []) as HI.
  { split.
    - apply NoDup_singleton.
    - intros x. unfold stack_nodes. simpl. set_solver.
    - apply Forall_singleton. exists []. split; [done|].
      intros x Hx. by apply elem_of_nil in Hx.
    - done.
    - constructor.
    - simpl. split; [lia|done].
    - intros x Hx. assert (x = source) as -> by set_solver. done. }
  destruct (dfs_while_postorder _ _ _ _ _ _ HI Hrun) as (V' & -> & HI').
  injection Hres as <- <-.
  exists V', (select_nodes reverse evs'). split; [done|].
  unfold bottom in HI'. simpl in HI'.
  destruct HI' as [Hnd Hv _ _ Ho _ Hr]. simpl in *.
  pose proof (finished_order_targets_first _ Ho) as Htf.
  assert (select_nodes reverse
            ((source, source, forward) :: evs' ++ [(source, source, reverse)])
          = select_nodes reverse evs' ++ [source]) as Heq.
  { by rewrite select_nodes_skip, select_nodes_app, select_nodes_take. }
  repeat split; try done.
  - intros Hx. apply Hr, Hv. by right.
  - revert x. apply rtc_ind_r.
    + set_solver.
    + intros y z _ Hz IHr. apply list_elem_of_split in IHr as (l1 & l2 & Hsplit).
      specialize (Htf _ _ _ Hsplit _ Hz). rewrite Hsplit. set_solver.
Qed.
End DfsPostorder.

(** The forward traversal of a well-formed acyclic graph: it ends
    normally, lists each node reachable from the source once, the source
    last, and every node after all the nodes it points to. *)
Lemma dfs_postorder_nodes_acyclic {A : Type} (G : DiGraph A) (n : node) :
  well_formed G → acyclic (_succ G) → n ∈ dict_keys (_node G) →
  ∃ order,
    dfs_postorder_nodes G (Some n) = mkGen (order ++ [n]) None
    ∧ NoDup (order ++ [n])
    ∧ targets_first (_succ G) (order ++ [n])
    ∧ ∀ x, x ∈ order ++ [n] ↔ rtc (edge (_succ G)) n x.
Proof.
  intros [Hkeys Hclosed] Hacyclic Hn.
  destruct (dfs_labeled_edges_run_total G (Some n)) as [[evs e] Hrun].
  assert (is_Some (dict_get (_succ G) n)) as Hsource.
  { apply dict_get_keys_Some. by rewrite Hkeys. }
  assert (length (dict_keys (_succ G)) ≤ length (_node G)) as Hlimit.
  { rewrite Hkeys. unfold dict_keys. by rewrite length_fmap. }
  destruct (dfs_postorder_source _ _ _ Hclosed Hacyclic Hlimit Hsource _ _ _ Hrun)
    as (V & order & -> & Hsel & Hnd & Htf & Hreach).
  exists order. split; [|done].
  unfold dfs_postorder_nodes, dfs_labeled_edges, select. rewrite Hrun. simpl.
  by rewrite Hsel.
Qed.

(** ** What a computation adds to the trace

    [hoare Q m R]: from any state, [m] only appends events satisfying
    [Q] to the trace, and a value it returns satisfies [R]. *)

Section Hoare.
Context {W Stage : Type}.
Implicit Types (Q : event Stage → Prop) (σ : state W Stage).

Definition hoare Q {T} (m : M W Stage T) (R : T → Prop) : Prop :=
  ∀ σ, (∃ evs, trace (m σ).1 = trace σ ++ evs ∧ Forall Q evs)
       ∧ ∀ v, (m σ).2 = Ok v → R v.

Lemma hoare_pure Q {T} (v : T) (R : T → Prop) : R v → hoare Q (pure v) R.
Proof.
  intros HR σ. split.
  - exists []. by rewrite app_nil_r.
  - simpl. by intros ? [= <-].
Qed.

Lemma hoare_raise Q {T} (e : exn) (R : T → Prop) : hoare Q (raise e) R.
Proof.
  intros σ. split; [|done]. exists []. by rewrite app_nil_r.
Qed.

Lemma hoare_observe Q {T} (f : W → T) : hoare Q (observe f) (λ _, True).
Proof.
  intros σ. split; [|done]. exists []. by rewrite app_nil_r.
Qed.

Lemma hoare_emit Q (ev : event Stage) : Q ev → hoare Q (emit ev) (λ _, True).
Proof.
  intros HQ σ. split; [|done]. exists [ev]. split; [done|].
  by apply Forall_singleton.
Qed.

Lemma hoare_call Q {T} (ev : event Stage) (f : W → W * outcome T) :
  Q ev → hoare Q (call ev f) (λ _, True).
Proof.
  intros HQ σ. split; [|done]. exists [ev]. unfold call.
  destruct (f (world σ)). split; [done|]. by apply Forall_singleton.
Qed.

Lemma hoare_bind Q {T U} (m : M W Stage T) (k : T → M W Stage U)
    (R : T → Prop) (R' : U → Prop) :
  hoare Q m R → (∀ v, R v → hoare Q (k v) R') → hoare Q (bind m k) R'.
Proof.
  intros Hm Hk σ. unfold bind.
  destruct (Hm σ) as [(evs & Htr & Hevs) HR].
  destruct (m σ) as [σ1 [v|e]]; simpl in *.
  - destruct (Hk v (HR v eq_refl) σ1) as [(evs' & Htr' & Hevs') HR'].
    split; [|done]. exists (evs ++ evs').
    rewrite Htr', Htr, app_assoc. split; [done|]. by apply Forall_app.
  - split; [|done]. by exists evs.
Qed.

Lemma hoare_try_except Q {T} (m : M W Stage T) (handler : exn → M W Stage T)
    (R : T → Prop) :
  hoare Q m R → (∀ e, hoare Q (handler e) R) → hoare Q (try_except m handler) R.
Proof.
  intros Hm Hh σ. unfold try_except.
  destruct (Hm σ) as [(evs & Htr & Hevs) HR].
  destruct (m σ) as [σ1 [v|e]]; simpl in *.
  - split; [by exists evs|]. by intros ? [= <-]; apply HR.
  - destruct (Hh e σ1) as [(evs' & Htr' & Hevs') HR'].
    split; [|done]. exists (evs ++ evs').
    rewrite Htr', Htr, app_assoc. split; [done|]. by apply Forall_app.
Qed.

Lemma hoare_with Q {T} (ev_in ev_out : event Stage) (enter exit : W → W)
    (body : M W Stage T) (R : T → Prop) :
  Q ev_in → Q ev_out → hoare Q body R →
  hoare Q (with_ ev_in ev_out enter exit body) R.
Proof.
  intros Hin Hout Hb σ. unfold with_.
  set (σ1 := mkState (enter (world σ)) (graphs σ) (trace σ ++ [ev_in])).
  destruct (Hb σ1) as [(evs & Htr & Hevs) HR].
  destruct (body σ1) as [σ2 r]; simpl in *.
  split; [|done]. exists ([ev_in] ++ evs ++ [ev_out]).
  rewrite Htr, <- !app_assoc. split; [done|].
  repeat (apply Forall_app; split); try done; by apply Forall_singleton.
Qed.

Lemma hoare_graph_new Q (G : DiGraph Stage) : hoare Q (graph_new G) (λ _, True).
Proof. intros σ. split; [|done]. exists []. simpl. by rewrite app_nil_r. Qed.

Lemma hoare_graph_read Q (r : nat) : hoare Q (graph_read r) (λ _, True).
Proof.
  intros σ. split; [|done]. exists []. unfold graph_read.
  destruct (graphs σ !! r); simpl; by rewrite app_nil_r.
Qed.

Lemma hoare_graph_copy Q (r : nat) : hoare Q (graph_copy r) (λ _, True).
Proof.
  eapply hoare_bind; [apply hoare_graph_read|]. intros G _.
  apply hoare_graph_new.
Qed.

Lemma hoare_graph_reverse_in_place Q (r : nat) :
  hoare Q (graph_reverse_in_place r) (λ _, True).
Proof.
  eapply hoare_bind; [apply hoare_graph_read|]. intros G _ σ.
  split; [|done]. exists []. simpl. by rewrite app_nil_r.
Qed.
End Hoare.

(** ** One node: [_reproduce_stage] *)

Section StageFacts.
Context {W Stage : Type} `{!StageClass W Stage}.
Implicit Types (σ : state W Stage) (stages : gmap node Stage).
Implicit Types (kwargs : gmap string pyval).

(** The warning of a locked stage, if any. *)
Definition warned (stage : Stage) : list (event Stage) :=
  if locked stage then [LogWarning (locked_warning stage)] else [].

Lemma reproduce_stage_missing stages n kwargs σ :
  stages !! n = None →
  _reproduce_stage stages n kwargs σ = (σ, Raise (KeyError n)).
Proof.
  intros Hn. unfold _reproduce_stage, bind, subscript. by rewrite Hn.
Qed.

Lemma reproduce_stage_unfold stages n kwargs stage σ :
  stages !! n = Some stage →
  _reproduce_stage stages n kwargs σ
  = let '(w, r) := stage_reproduce stage kwargs (world σ) in
    let called := trace σ ++ warned stage ++ [StageReproduce stage kwargs] in
    match r with
    | Raise ex => (mkState w (graphs σ) called, Raise ex)
    | Ok None => (mkState w (graphs σ) called, Ok [])
    | Ok (Some stage') =>
        if truthy (kwargs_get kwargs "dry") then
          (mkState w (graphs σ) called, Ok [stage'])
        else
          let '(w', r') := stage_dump stage' w in
          (mkState w' (graphs σ) (called ++ [StageDump stage']),
           match r' with Ok _ => Ok [stage'] | Raise ex => Raise ex end)
    end.
Proof.
  intros Hn. unfold _reproduce_stage, bind, subscript, warned. rewrite Hn.
  destruct σ as [w0 gs tr]. unfold pure at 1.
  destruct (locked stage); unfold emit, call, pure; simpl;
    destruct (stage_reproduce stage kwargs w0) as [w [[stage'|]|ex]]; simpl;
    rewrite <- ?app_assoc; try done;
    destruct (truthy (kwargs_get kwargs "dry")); simpl;
    rewrite <- ?app_assoc; try done;
    by destruct (stage_dump stage' w) as [w' [[]|ex]]; simpl;
      rewrite <- ?app_assoc.
Qed.

Lemma hoare_reproduce_stage (Q : event Stage → Prop) stages n kwargs :
  (∀ msg, Q (LogWarning msg)) → (∀ st, Q (StageDump st)) →
  (∀ st, Q (StageReproduce st kwargs)) →
  hoare Q (_reproduce_stage stages n kwargs) (λ _, True).
Proof.
  intros Hw Hd Hr. unfold _reproduce_stage.
  eapply hoare_bind with (R := λ _, True).
  { unfold subscript. destruct (stages !! n);
      [by apply hoare_pure|apply hoare_raise]. }
  intros stage _. eapply hoare_bind with (R := λ _, True).
  { destruct (locked stage); [by apply hoare_emit|by apply hoare_pure]. }
  intros _ _. eapply hoare_bind; [by apply hoare_call|].
  intros [stage'|] _; [|by apply hoare_pure].
  eapply hoare_bind with (R := λ _, True); [|intros; by apply hoare_pure].
  destruct (negb _); [by apply hoare_call|by apply hoare_pure].
Qed.
(** The stage of the node is always called. *)
Lemma reproduce_stage_called stages n kwargs stage σ :
  stages !! n = Some stage →
  trace σ ++ warned stage ++ [StageReproduce stage kwargs]
    `prefix_of` trace (_reproduce_stage stages n kwargs σ).1.
Proof.
  intros Hn. rewrite (reproduce_stage_unfold _ _ _ _ _ Hn).
  destruct (stage_reproduce stage kwargs (world σ)) as [w [[stage'|]|ex]];
    simpl; try done.
  destruct (truthy _); simpl; [done|].
  destruct (stage_dump stage' w). simpl. by eexists.
Qed.

(** C6.  For a node that has a stage: a locked stage gets its warning
    and is reproduced all the same; a reproduction that returns
    nothing contributes no entry; one that returns an updated stage
    contributes that stage, which is persisted first unless [dry] is
    set; with [dry] set nothing is ever persisted. *)
Theorem reproduce_stage_contract stages n kwargs stage σ w r :
  stages !! n = Some stage →
  stage_reproduce stage kwargs (world σ) = (w, r) →
  let called :=
    trace σ
      ++ (if locked stage then [LogWarning (locked_warning stage)] else [])
      ++ [StageReproduce stage kwargs] in
  called `prefix_of` trace (_reproduce_stage stages n kwargs σ).1
  ∧ (r = Ok None →
     _reproduce_stage stages n kwargs σ
     = (mkState w (graphs σ) called, Ok []))
  ∧ (∀ stage', r = Ok (Some stage') →
       truthy (kwargs_get kwargs "dry") = false →
       ∀ w' r', stage_dump stage' w = (w', r') →
         _reproduce_stage stages n kwargs σ
         = (mkState w' (graphs σ) (called ++ [StageDump stage']),
            match r' with Ok _ => Ok [stage'] | Raise ex => Raise ex end))
  ∧ (∀ stage', r = Ok (Some stage') →
       truthy (kwargs_get kwargs "dry") = true →
       _reproduce_stage stages n kwargs σ
       = (mkState w (graphs σ) called, Ok [stage']))
  ∧ (truthy (kwargs_get kwargs "dry") = true →
     trace (_reproduce_stage stages n kwargs σ).1 = called).
Proof.
  intros Hn Hr called.
  split; [by apply reproduce_stage_called|].
  rewrite (reproduce_stage_unfold _ _ _ _ _ Hn), Hr.
  fold (warned stage) in called. fold called.
  repeat split.
  - by intros ->.
  - intros stage' -> -> w' r' ->. done.
  - by intros stage' -> ->.
  - intros Hdry. destruct r as [[stage'|]|ex]; simpl; try done.
    by rewrite Hdry.
Qed.

End StageFacts.

(** ** One traversal: the loop of [_reproduce_stages] *)

Section PipelineFacts.
Context {W Stage : Type} `{!StageClass W Stage}.
Implicit Types (σ : state W Stage) (stages : gmap node Stage).
Implicit Types (kwargs : gmap string pyval) (result : list Stage).

(** The bag in force once the traversal has grown [result] into
    [result']: forced as soon as the result grew under the cascade
    option. *)
Definition cascaded (ignore_build_cache : pyval) kwargs result result'
  : gmap string pyval :=
  if negb (length result' =? length result)%nat && truthy ignore_build_cache
  then <["force" := PyBool true]> kwargs
  else kwargs.

Lemma visit_ok stages ibc n kwargs result σ σ' kwargs' result' :
  visit stages ibc n kwargs result σ = (σ', Ok (kwargs', result')) →
  ∃ ret, _reproduce_stage stages n kwargs σ = (σ', Ok ret)
          ∧ result' = result ++ ret
          ∧ kwargs' = cascaded ibc kwargs result result'.
Proof.
  unfold visit, try_except, bind at 1.
  destruct (_reproduce_stage stages n kwargs σ) as [σ1 [ret|ex]]; simpl.
  - intros [= <- <- <-]. exists ret. repeat split.
    unfold cascaded. rewrite length_app.
    replace (length result + length ret =? length result)
      with (length ret =? 0); [done|].
    destruct (Nat.eqb_spec (length ret) 0),
      (Nat.eqb_spec (length result + length ret) (length result)); lia.
  - unfold bind, subscript. destruct (stages !! n); discriminate.
Qed.

Lemma visit_raise stages ibc n kwargs result σ σ' stage ex :
  stages !! n = Some stage →
  _reproduce_stage stages n kwargs σ = (σ', Raise ex) →
  visit stages ibc n kwargs result σ
  = (σ', Raise (ReproductionError (relpath stage) ex)).
Proof.
  intros Hn Hrun. unfold visit, try_except, bind at 1. rewrite Hrun.
  unfold bind, subscript. by rewrite Hn.
Qed.

Lemma cascaded_twice ibc kwargs result result' result'' :
  length result ≤ length result' → length result' ≤ length result'' →
  cascaded ibc (cascaded ibc kwargs result result') result' result''
  = cascaded ibc kwargs result result''.
Proof.
  intros H1 H2. unfold cascaded.
  destruct (truthy ibc); rewrite ?andb_false_r, ?andb_true_r; [|done].
  destruct (Nat.eqb_spec (length result') (length result)),
    (Nat.eqb_spec (length result'') (length result')),
    (Nat.eqb_spec (length result'') (length result)); simpl;
    try done; try lia.
  by rewrite insert_insert_eq.
Qed.

(** Running the loop over a prefix first, then over what is left. *)
Lemma reproduce_pipeline_prefix stages ibc pre :
  ∀ kwargs result σ,
    match reproduce_pipeline stages ibc pre None kwargs result σ with
    | (σ1, Ok result1) =>
        length result ≤ length result1
        ∧ ∀ post stop,
            reproduce_pipeline stages ibc (pre ++ post) stop kwargs result σ
            = reproduce_pipeline stages ibc post stop
                (cascaded ibc kwargs result result1) result1 σ1
    | (σ1, Raise ex) =>
        ∀ post stop,
          reproduce_pipeline stages ibc (pre ++ post) stop kwargs result σ
          = (σ1, Raise ex)
    end.
Proof.
  induction pre as [|n pre IH]; intros kwargs result σ.
  - simpl. unfold pure. split; [done|]. intros post stop.
    unfold cascaded. by rewrite Nat.eqb_refl.
  - assert (∀ post stop,
              reproduce_pipeline stages ibc ((n :: pre) ++ post) stop kwargs
                result σ
              = match visit stages ibc n kwargs result σ with
                | (σ', Ok (kwargs', result')) =>
                    reproduce_pipeline stages ibc (pre ++ post) stop kwargs'
                      result' σ'
                | (σ', Raise ex) => (σ', Raise ex)
                end) as Hstep.
    { intros post stop. simpl. unfold bind at 1.
      by destruct (visit stages ibc n kwargs result σ) as [σ' [[??]|?]]. }
    pose proof (Hstep [] None) as Hnil. rewrite !app_nil_r in Hnil.
    rewrite Hnil. clear Hnil.
    destruct (visit stages ibc n kwargs result σ)
      as [σ' [[kwargs' result']|ex]] eqn:Hvisit; [|done].
    apply visit_ok in Hvisit as (ret & _ & Hres & Hkw).
    assert (length result ≤ length result') as Hlen'.
    { rewrite Hres, length_app. lia. }
    specialize (IH kwargs' result' σ').
    destruct (reproduce_pipeline stages ibc pre None kwargs' result' σ')
      as [σ1 [result1|ex]] eqn:Hrec; rewrite ?Hrec in IH.
    + destruct IH as [Hlen IH]. split; [lia|]. intros post stop.
      rewrite Hstep, IH, Hkw. by rewrite cascaded_twice.
    + intros post stop. by rewrite Hstep, IH.
Qed.

(** The events of a traversal that starts with the bag [kwargs]. *)
Definition traversal_event kwargs (Q : event Stage → Prop) : Prop :=
  (∀ msg, Q (LogWarning msg)) ∧ (∀ st, Q (StageDump st))
  ∧ (∀ st, Q (StageReproduce st kwargs))
  ∧ (∀ st, Q (StageReproduce st (<["force" := PyBool true]> kwargs))).

Lemma traversal_event_forced kwargs Q :
  traversal_event kwargs Q →
  traversal_event (<["force" := PyBool true]> kwargs) Q.
Proof.
  intros (? & ? & ? & ?). repeat split; try done.
  intros st. by rewrite insert_insert_eq.
Qed.

Lemma hoare_visit Q stages ibc n kwargs result :
  traversal_event kwargs Q →
  hoare Q (visit stages ibc n kwargs result)
    (λ r, r.1 = kwargs ∨ r.1 = <["force" := PyBool true]> kwargs).
Proof.
  intros (Hw & Hd & Hr & Hf). unfold visit. apply hoare_try_except.
  - eapply hoare_bind; [by apply hoare_reproduce_stage|].
    intros ret _. apply hoare_pure. simpl.
    destruct (_ && _); auto.
  - intros ex. eapply hoare_bind with (R := λ _, True).
    + unfold subscript. destruct (stages !! n);
        [by apply hoare_pure|apply hoare_raise].
    + intros. apply hoare_raise.
Qed.

Lemma hoare_reproduce_pipeline Q stages ibc pipeline stop :
  ∀ kwargs result,
    traversal_event kwargs Q →
    hoare Q (reproduce_pipeline stages ibc pipeline stop kwargs result)
      (λ _, True).
Proof.
  induction pipeline as [|n pipeline IH]; intros kwargs result HQ; simpl.
  - destruct stop; [apply hoare_raise|by apply hoare_pure].
  - eapply hoare_bind; [by apply hoare_visit|].
    intros [kwargs' result'] Hr. simpl in Hr.
    destruct Hr as [->| ->]; apply IH; [done|].
    by apply traversal_event_forced.
Qed.

Lemma reproduce_pipeline_trace stages ibc pipeline stop kwargs result σ :
  trace σ `prefix_of`
    trace (reproduce_pipeline stages ibc pipeline stop kwargs result σ).1.
Proof.
  destruct (hoare_reproduce_pipeline (λ _, True) stages ibc pipeline stop
              kwargs result) with (σ := σ) as [(evs & -> & _) _]; [done|].
  by exists evs.
Qed.

Lemma reproduce_stage_trace stages n kwargs σ :
  trace σ `prefix_of` trace (_reproduce_stage stages n kwargs σ).1.
Proof.
  destruct (hoare_reproduce_stage (λ _, True) stages n kwargs)
    with (σ := σ) as [(evs & -> & _) _]; [done..|].
  by exists evs.
Qed.

(** *** Which stages a traversal reproduces *)

(** The stages whose reproduction was invoked, in the order of the
    trace. *)
Definition reproduced (tr : list (event Stage)) : list Stage :=
  omap (λ ev, match ev with
              | StageReproduce st _ => Some st
              | _ => None
              end) tr.

Lemma reproduced_app (tr tr' : list (event Stage)) :
  reproduced (tr ++ tr') = reproduced tr ++ reproduced tr'.
Proof. apply omap_app. Qed.

Lemma reproduce_stage_reproduced stages n kwargs σ :
  ∃ evs, trace (_reproduce_stage stages n kwargs σ).1 = trace σ ++ evs
         ∧ reproduced evs = omap (stages !!.) [n].
Proof.
  simpl. destruct (stages !! n) as [stage|] eqn:Hn.
  - rewrite (reproduce_stage_unfold _ _ _ _ _ Hn).
    assert (reproduced (warned stage) = []) as Hw
      by (unfold warned; by destruct (locked stage)).
    destruct (stage_reproduce stage kwargs (world σ)) as [w [[stage'|]|ex]].
    + destruct (truthy (kwargs_get kwargs "dry")).
      * eexists. split; [done|]. by rewrite reproduced_app, Hw.
      * destruct (stage_dump stage' w) as [w' r']. simpl.
        rewrite <- !app_assoc. eexists. split; [done|].
        by rewrite !reproduced_app, Hw.
    + eexists. split; [done|]. by rewrite reproduced_app, Hw.
    + eexists. split; [done|]. by rewrite reproduced_app, Hw.
  - rewrite (reproduce_stage_missing _ _ _ _ Hn). exists [].
    by rewrite app_nil_r.
Qed.

Lemma visit_state stages ibc n kwargs result σ :
  (visit stages ibc n kwargs result σ).1
  = (_reproduce_stage stages n kwargs σ).1.
Proof.
  unfold visit, try_except, bind at 1.
  destruct (_reproduce_stage stages n kwargs σ) as [σ' [ret|ex]]; [done|].
  unfold bind, subscript. by destruct (stages !! n).
Qed.

(** The loop reproduces the stages of the nodes of [pipeline] in order,
    up to the node at which it stops, and all of them if it returns. *)
Lemma reproduce_pipeline_visits stages ibc pipeline stop :
  ∀ kwargs result σ,
    let run := reproduce_pipeline stages ibc pipeline stop kwargs result σ in
    ∃ visited evs,
      visited `prefix_of` pipeline
      ∧ trace run.1 = trace σ ++ evs
      ∧ reproduced evs = omap (stages !!.) visited
      ∧ ∀ r, run.2 = Ok r → visited = pipeline.
Proof.
  induction pipeline as [|n pipeline IH]; intros kwargs result σ; simpl.
  - exists [], []. rewrite app_nil_r. by destruct stop.
  - unfold bind at 1 2.
    pose proof (visit_state stages ibc n kwargs result σ) as Hstate.
    destruct (reproduce_stage_reproduced stages n kwargs σ)
      as (evs & Htr & Hevs).
    rewrite <- Hstate in Htr.
    destruct (visit stages ibc n kwargs result σ)
      as [σ' [[kwargs' result']|ex]]; simpl in *.
    + destruct (IH kwargs' result' σ') as (visited & evs' & Hpre & Htr' & Hevs' & Hok).
      exists (n :: visited), (evs ++ evs'). repeat split.
      * by apply prefix_cons.
      * by rewrite Htr', Htr, app_assoc.
      * rewrite reproduced_app, Hevs, Hevs'. simpl.
        by destruct (stages !! n).
      * intros r Hr. f_equal. by eapply Hok.
    + exists [n], evs. repeat split; try done.
      apply prefix_cons, prefix_nil.
Qed.

(** *** What a failing node does to the traversal *)

(** C4.  When the nodes before [B] have been reproduced and the
    reproduction of [B] raises [ex], the traversal raises a
    [ReproductionError] that carries the path of the stage of [B] and
    [ex] as its cause.  It stops in the state the failing attempt left:
    the stages reproduced are those of the nodes up to [B] and of no node
    after it, whatever follows, and what was done for the nodes before
    [B] is still there. *)
Theorem failure_stops_traversal stages ibc pre B post stop kwargs σ σ1 σ2
    result1 stage ex :
  reproduce_pipeline stages ibc pre None kwargs [] σ = (σ1, Ok result1) →
  stages !! B = Some stage →
  _reproduce_stage stages B (cascaded ibc kwargs [] result1) σ1
    = (σ2, Raise ex) →
  reproduce_pipeline stages ibc (pre ++ B :: post) stop kwargs [] σ
    = (σ2, Raise (ReproductionError (relpath stage) ex))
  ∧ trace σ `prefix_of` trace σ1
  ∧ trace σ1 `prefix_of` trace σ2
  ∧ ∃ evs, trace σ2 = trace σ ++ evs
           ∧ reproduced evs = omap (stages !!.) (pre ++ [B]).
Proof.
  intros Hpre HB Hfail.
  pose proof (reproduce_pipeline_prefix stages ibc pre kwargs [] σ) as Hsplit.
  rewrite Hpre in Hsplit. destruct Hsplit as [_ Hsplit].
  destruct (reproduce_pipeline_visits stages ibc pre None kwargs [] σ)
    as (visited & evs1 & _ & Htr1 & Hevs1 & Hall).
  destruct (reproduce_stage_reproduced stages B
              (cascaded ibc kwargs [] result1) σ1) as (evsB & HtrB & HevsB).
  rewrite Hpre in Htr1, Hall. rewrite Hfail in HtrB. simpl in *.
  rewrite (Hall result1 eq_refl) in Hevs1.
  repeat split.
  - rewrite Hsplit. simpl. unfold bind at 1.
    by erewrite visit_raise.
  - by exists evs1.
  - by exists evsB.
  - exists (evs1 ++ evsB). split; [by rewrite HtrB, Htr1, app_assoc|].
    by rewrite reproduced_app, omap_app, Hevs1, HevsB.
Qed.

(** *** The force flag *)

(** C3, as the code has it.  The bag handed to a node is the caller's
    own bag until a node of this traversal reports a change while
    [ignore_build_cache] is set; from then on it is the caller's bag
    with [force] set to True.  So the first node sees the caller's
    [force] option, not [ignore_build_cache]; the result only grows, so
    the flag is never taken back; and the next traversal is started
    from the caller's bag again. *)
Theorem force_flag_cascade stages ibc pre n post stop kwargs σ σ1 result1
    stage :
  reproduce_pipeline stages ibc pre None kwargs [] σ = (σ1, Ok result1) →
  stages !! n = Some stage →
  let bag :=
    if negb (length result1 =? 0) && truthy ibc
    then <["force" := PyBool true]> kwargs
    else kwargs in
  reproduce_pipeline stages ibc (pre ++ n :: post) stop kwargs [] σ
    = bind (visit stages ibc n bag result1)
        (λ '(kwargs', result'),
           reproduce_pipeline stages ibc post stop kwargs' result') σ1
  ∧ trace σ1
      ++ (if locked stage then [LogWarning (locked_warning stage)] else [])
      ++ [StageReproduce stage bag]
    `prefix_of`
      trace (reproduce_pipeline stages ibc (pre ++ n :: post) stop kwargs [] σ).1
  ∧ (∀ mid σ2 result2,
       reproduce_pipeline stages ibc (pre ++ mid) None kwargs [] σ
         = (σ2, Ok result2) →
       length result1 ≤ length result2)
  ∧ (∀ (self : Repo W Stage) target targets ret,
       reproduce_targets self (target :: targets) kwargs ret
       = bind (_reproduce self target (kwargs_get kwargs "single_item")
                 (delete "single_item" kwargs))
           (λ reproduced,
              reproduce_targets self targets kwargs (ret ++ reproduced))).
Proof.
  intros Hpre Hn bag.
  pose proof (reproduce_pipeline_prefix stages ibc pre kwargs [] σ) as Hsplit.
  rewrite Hpre in Hsplit. destruct Hsplit as [_ Hsplit].
  assert (cascaded ibc kwargs [] result1 = bag) as Hbag by done.
  rewrite Hbag in Hsplit.
  assert (reproduce_pipeline stages ibc (pre ++ n :: post) stop kwargs [] σ
          = bind (visit stages ibc n bag result1)
              (λ '(kwargs', result'),
                 reproduce_pipeline stages ibc post stop kwargs' result') σ1)
    as Hrun.
  { by rewrite Hsplit. }
  repeat split; [exact Hrun| |].
  - rewrite Hrun. unfold bind at 1, visit, try_except, bind at 1.
    pose proof (reproduce_stage_called stages n bag stage σ1 Hn) as Hcalled.
    destruct (_reproduce_stage stages n bag σ1) as [σ' [ret|ex]];
      simpl in *.
    + etrans; [exact Hcalled|]. apply reproduce_pipeline_trace.
    + unfold bind, subscript. by rewrite Hn.
  - intros mid σ2 result2. rewrite Hsplit. intros Hmid.
    pose proof (reproduce_pipeline_prefix stages ibc mid bag result1 σ1) as H.
    rewrite Hmid in H. by destruct H.
Qed.
End PipelineFacts.

(** ** The traversal order of [_reproduce_stages] *)

Section TraversalFacts.
Context {W Stage : Type} `{!StageClass W Stage}.
Implicit Types (σ : state W Stage) (stages : gmap node Stage).
Implicit Types (kwargs : gmap string pyval) (g : DiGraph Stage).

(** Computations that leave the graph objects alone. *)
Definition keeps_graphs {T} (m : M W Stage T) : Prop :=
  ∀ σ, graphs (m σ).1 = graphs σ.

Lemma keeps_graphs_bind {T U} (m : M W Stage T) (k : T → M W Stage U) :
  keeps_graphs m → (∀ v, keeps_graphs (k v)) → keeps_graphs (bind m k).
Proof.
  intros Hm Hk σ. unfold bind. specialize (Hm σ).
  destruct (m σ) as [σ1 [v|ex]]; simpl in *; [|done].
  by rewrite Hk.
Qed.

Lemma keeps_graphs_try_except {T} (m : M W Stage T) (h : exn → M W Stage T) :
  keeps_graphs m → (∀ ex, keeps_graphs (h ex)) → keeps_graphs (try_except m h).
Proof.
  intros Hm Hh σ. unfold try_except. specialize (Hm σ).
  destruct (m σ) as [σ1 [v|ex]]; simpl in *; [done|].
  by rewrite Hh.
Qed.

Lemma keeps_graphs_call {T} (ev : event Stage) (f : W → W * outcome T) :
  keeps_graphs (call ev f).
Proof. intros σ. unfold call. by destruct (f (world σ)). Qed.

Lemma keeps_graphs_subscript stages n : keeps_graphs (subscript stages n).
Proof. intros σ. unfold subscript. by destruct (stages !! n). Qed.

Lemma keeps_graphs_reproduce_stage stages n kwargs :
  keeps_graphs (_reproduce_stage stages n kwargs).
Proof.
  unfold _reproduce_stage.
  apply keeps_graphs_bind; [apply keeps_graphs_subscript|]. intros stage.
  apply keeps_graphs_bind; [by destruct (locked stage)|]. intros _.
  apply keeps_graphs_bind; [apply keeps_graphs_call|]. intros [stage'|]; [|done].
  apply keeps_graphs_bind; [|done].
  destruct (negb _); [apply keeps_graphs_call|done].
Qed.

Lemma keeps_graphs_reproduce_pipeline stages ibc pipeline stop :
  ∀ kwargs result,
    keeps_graphs (reproduce_pipeline stages ibc pipeline stop kwargs result).
Proof.
  induction pipeline as [|n pipeline IH]; intros kwargs result; simpl.
  - by destruct stop.
  - apply keeps_graphs_bind; [|by intros []].
    apply keeps_graphs_try_except.
    + apply keeps_graphs_bind; [apply keeps_graphs_reproduce_stage|done].
    + intros ex. apply keeps_graphs_bind; [apply keeps_graphs_subscript|done].
Qed.

Lemma derive_pipeline_forward G g n downstream σ :
  graphs σ !! G = Some g → truthy downstream = false →
  derive_pipeline G n downstream σ = (σ, Ok (dfs_postorder_nodes g (Some n))).
Proof.
  intros HG Hd. unfold derive_pipeline. rewrite Hd.
  unfold bind, graph_read. by rewrite HG.
Qed.

Lemma derive_pipeline_downstream G g n downstream σ :
  graphs σ !! G = Some g → truthy downstream = true →
  derive_pipeline G n downstream σ
  = (mkState (world σ) (graphs σ ++ [reverse_in_place (copy g)]) (trace σ),
     Ok (dfs_preorder_nodes (reverse_in_place (copy g)) (Some n))).
Proof.
  intros HG Hd. unfold derive_pipeline. rewrite Hd.
  unfold graph_copy, graph_reverse_in_place, bind, graph_read, graph_new.
  rewrite HG. simpl.
  rewrite (list_lookup_middle (graphs σ) [] (copy g) (length (graphs σ)) eq_refl).
  simpl.
  assert (<[length (graphs σ) := reverse_in_place (copy g)]>
            (graphs σ ++ [copy g])
          = graphs σ ++ [reverse_in_place (copy g)]) as ->.
  { rewrite insert_app_r_alt by lia. by rewrite Nat.sub_diag. }
  by rewrite (list_lookup_middle (graphs σ) [] _ (length (graphs σ)) eq_refl).
Qed.

(** C7.  A downstream traversal leaves the graph object it was given
    as it found it, whether the traversal completes or fails: the
    reversed graph is a new object, added next to the others. *)
Theorem downstream_keeps_graph G g stages n downstream ibc kwargs σ :
  graphs σ !! G = Some g → truthy downstream = true →
  let σ' := (_reproduce_stages G stages n downstream ibc kwargs σ).1 in
  graphs σ' !! G = Some g
  ∧ graphs σ' = graphs σ ++ [reverse_in_place (copy g)].
Proof.
  intros HG Hd σ'.
  assert (graphs σ' = graphs σ ++ [reverse_in_place (copy g)]) as Hgraphs.
  { unfold σ', _reproduce_stages, bind at 1.
    rewrite (derive_pipeline_downstream _ _ _ _ _ HG Hd).
    by rewrite keeps_graphs_reproduce_pipeline. }
  split; [|done]. rewrite Hgraphs. by apply lookup_app_l_Some.
Qed.

(** C1.  A forward traversal of an acyclic graph runs the loop over
    the postorder of the search from the starting node: no node comes
    twice, the starting node comes last, every node comes after all its
    dependencies, and the nodes are those the starting node depends on,
    directly or not.  The stages are reproduced in that order, up to the
    node at which the run stops.  On the chain where C depends on B and
    B on A, starting at C, the order is A, B, C. *)
Theorem forward_visits_postorder :
  (∀ G g stages n downstream ibc kwargs σ,
     graphs σ !! G = Some g → truthy downstream = false →
     well_formed g → acyclic (_succ g) → n ∈ dict_keys (_node g) →
     ∃ pipeline,
       _reproduce_stages G stages n downstream ibc kwargs σ
         = reproduce_pipeline stages ibc pipeline None kwargs [] σ
       ∧ NoDup pipeline
       ∧ last pipeline = Some n
       ∧ targets_first (_succ g) pipeline
       ∧ (∀ x, x ∈ pipeline ↔ rtc (edge (_succ g)) n x)
       ∧ let run := _reproduce_stages G stages n downstream ibc kwargs σ in
         ∃ visited evs,
           visited `prefix_of` pipeline
           ∧ trace run.1 = trace σ ++ evs
           ∧ reproduced evs = omap (stages !!.) visited
           ∧ ∀ r, run.2 = Ok r → visited = pipeline)
  ∧ (∀ stages ibc kwargs σ,
       graphs σ = [chain] →
       _reproduce_stages 0 stages "C" (PyBool false) ibc kwargs σ
       = reproduce_pipeline stages ibc ["A"; "B"; "C"] None kwargs [] σ).
Proof.
  split.
  - intros G g stages n downstream ibc kwargs σ HG Hd Hwf Hacyclic Hn.
    destruct (dfs_postorder_nodes_acyclic g n Hwf Hacyclic Hn)
      as (order & Hgen & Hnd & Htf & Hreach).
    assert (_reproduce_stages G stages n downstream ibc kwargs σ
            = reproduce_pipeline stages ibc (order ++ [n]) None kwargs [] σ)
      as Hrun.
    { unfold _reproduce_stages, bind at 1.
      by rewrite (derive_pipeline_forward _ _ _ _ _ HG Hd), Hgen. }
    exists (order ++ [n]).
    split; [done|]. split; [done|]. split; [apply last_snoc|].
    split; [done|]. split; [done|].
    rewrite Hrun. apply reproduce_pipeline_visits.
  - intros stages ibc kwargs σ Hgraphs.
    unfold _reproduce_stages, bind at 1.
    erewrite derive_pipeline_forward; [|by rewrite Hgraphs|done].
    done.
Qed.
End TraversalFacts.

(** ** The entry points: [_reproduce] and [reproduce] *)

Section RepoFacts.
Context {W Stage : Type} `{!StageClass W Stage}.
Implicit Types (σ : state W Stage) (self : Repo W Stage).
Implicit Types (kwargs : gmap string pyval) (g : DiGraph Stage).

(** C8.  Without a target and without [all_pipelines] the call raises
    at once (the code raises [ValueError] for this condition): the
    state is the one it was called in, so no configuration, graph or
    stage has been touched. *)
Theorem no_target_is_rejected self target recursive pipeline kwargs σ :
  no_target target = true →
  reproduce self target recursive pipeline false kwargs σ
  = (σ, Raise ValueError).
Proof. intros Ht. unfold reproduce. by rewrite Ht. Qed.

(** *** A single item *)

Lemma reproduce_single_item self target single_item kwargs σ stage w1 g w2 :
  truthy single_item = true →
  Stage_load target (world σ) = (w1, Ok stage) →
  repo_graph self None w1 = (w2, Ok g) →
  _reproduce self target single_item kwargs σ
  = _reproduce_stage (get_node_attributes g)
      (utils_relpath self (path stage) (root_dir self)) kwargs
      (mkState w2 (graphs σ ++ [g])
         (trace σ ++ [StageLoad target; RepoGraph None])).
Proof.
  intros Hsi Hload Hgraph. unfold _reproduce.
  unfold bind at 1, call at 1. rewrite Hload.
  unfold bind at 1, call at 1. simpl. rewrite Hgraph.
  unfold bind at 1, graph_new. simpl.
  unfold bind at 1, graph_read. simpl.
  rewrite (list_lookup_middle (graphs σ) [] g (length (graphs σ)) eq_refl).
  rewrite Hsi, <- app_assoc. done.
Qed.

(** C10.  With [single_item] set, [_reproduce] is the reproduction of
    the target's own stage and of nothing else: that stage is
    reproduced once, with the bag as given, and an exception of its
    reproduction reaches the caller as it is. *)
Theorem single_item_is_one_stage self target single_item kwargs σ stage w1 g w2
    own :
  truthy single_item = true →
  Stage_load target (world σ) = (w1, Ok stage) →
  repo_graph self None w1 = (w2, Ok g) →
  get_node_attributes g !! utils_relpath self (path stage) (root_dir self)
    = Some own →
  let σ2 := mkState w2 (graphs σ ++ [g])
              (trace σ ++ [StageLoad target; RepoGraph None]) in
  let run := _reproduce self target single_item kwargs σ in
  run = _reproduce_stage (get_node_attributes g)
          (utils_relpath self (path stage) (root_dir self)) kwargs σ2
  ∧ (∃ evs,
       trace run.1
       = trace σ2
           ++ (if locked own then [LogWarning (locked_warning own)] else [])
           ++ [StageReproduce own kwargs] ++ evs
       ∧ Forall (λ ev, ∃ st, ev = StageDump st) evs)
  ∧ (∀ w ex,
       stage_reproduce own kwargs w2 = (w, Raise ex) →
       run = (mkState w (graphs σ2)
                (trace σ2
                   ++ (if locked own then [LogWarning (locked_warning own)]
                       else [])
                   ++ [StageReproduce own kwargs]),
              Raise ex)).
Proof.
  intros Hsi Hload Hgraph Hown σ2 run.
  assert (run = _reproduce_stage (get_node_attributes g)
                  (utils_relpath self (path stage) (root_dir self)) kwargs σ2)
    as Hrun by by eapply reproduce_single_item.
  split; [done|]. rewrite Hrun.
  rewrite (reproduce_stage_unfold _ _ _ _ _ Hown). fold (warned own).
  change (world σ2) with w2.
  destruct (stage_reproduce own kwargs w2) as [w [[stage'|]|ex]] eqn:Hr.
  - split; [|done]. destruct (truthy (kwargs_get kwargs "dry")).
    + exists []. by rewrite app_nil_r.
    + destruct (stage_dump stage' w) as [w' r']. exists [StageDump stage'].
      simpl. rewrite <- !app_assoc. split; [done|].
      apply Forall_singleton. by eexists.
  - split; [|done]. exists []. by rewrite app_nil_r.
  - split; [|by intros ?? [= <- <-]]. exists []. by rewrite app_nil_r.
Qed.

(** *** Several starting points *)

Lemma reproduce_targets_prefix self pre kwargs :
  ∀ ret σ,
    match reproduce_targets self pre kwargs ret σ with
    | (σ1, Ok ret1) =>
        ∀ post, reproduce_targets self (pre ++ post) kwargs ret σ
                = reproduce_targets self post kwargs ret1 σ1
    | (σ1, Raise ex) =>
        ∀ post, reproduce_targets self (pre ++ post) kwargs ret σ
                = (σ1, Raise ex)
    end.
Proof.
  induction pre as [|t pre IH]; intros ret σ; [done|].
  assert (∀ post,
            reproduce_targets self ((t :: pre) ++ post) kwargs ret σ
            = match _reproduce self t (kwargs_get kwargs "single_item")
                      (delete "single_item" kwargs) σ with
              | (σ', Ok reproduced) =>
                  reproduce_targets self (pre ++ post) kwargs
                    (ret ++ reproduced) σ'
              | (σ', Raise ex) => (σ', Raise ex)
              end) as Hstep.
  { intros post. simpl. unfold bind at 1.
    by destruct (_reproduce self t _ _ σ) as [σ' [?|?]]. }
  pose proof (Hstep []) as Hnil. rewrite !app_nil_r in Hnil.
  rewrite Hnil. clear Hnil.
  destruct (_reproduce self t _ _ σ) as [σ' [reproduced|ex]]; [|done].
  specialize (IH (ret ++ reproduced) σ').
  destruct (reproduce_targets self pre kwargs (ret ++ reproduced) σ')
    as [σ1 [ret1|ex]]; intros post; by rewrite Hstep, IH.
Qed.

(** C5, as the code has it.  The loop over the starting points has no
    handler: when the traversal of one starting point raises, the run
    raises the same exception in the state that traversal left, and
    the starting points after it are not attempted; the state context
    is left on the way out. *)
Theorem failure_aborts_remaining_targets self pre target post kwargs σ σ1 σ2
    ret1 ex :
  reproduce_targets self pre kwargs [] σ = (σ1, Ok ret1) →
  _reproduce self target (kwargs_get kwargs "single_item")
    (delete "single_item" kwargs) σ1 = (σ2, Raise ex) →
  reproduce_targets self (pre ++ target :: post) kwargs [] σ = (σ2, Raise ex)
  ∧ ∀ σ0,
      σ = mkState (state_enter self (world σ0)) (graphs σ0)
            (trace σ0 ++ [StateEnter]) →
      with_ StateEnter StateExit (state_enter self) (state_exit self)
        (reproduce_targets self (pre ++ target :: post) kwargs []) σ0
      = (mkState (state_exit self (world σ2)) (graphs σ2)
           (trace σ2 ++ [StateExit]), Raise ex).
Proof.
  intros Hpre Hfail.
  assert (reproduce_targets self (pre ++ target :: post) kwargs [] σ
          = (σ2, Raise ex)) as Hrun.
  { pose proof (reproduce_targets_prefix self pre kwargs [] σ) as Hsplit.
    rewrite Hpre in Hsplit. rewrite Hsplit. simpl. unfold bind at 1.
    by rewrite Hfail. }
  split; [done|]. intros σ0 Hσ. unfold with_. by rewrite <- Hσ, Hrun.
Qed.

(** *** The [interactive] option *)

(** Events of a run in which every stage is reproduced with
    [interactive] bound to [v]; [config_ok] tells whether the
    configuration may be read. *)
Definition interactive_event (v : option pyval) (config_ok : Prop)
    (ev : event Stage) : Prop :=
  match ev with
  | StageReproduce _ bag => bag !! "interactive" = v
  | ConfigRead => config_ok
  | _ => True
  end.

Lemma interactive_traversal_event v config_ok kwargs :
  kwargs !! "interactive" = v →
  traversal_event kwargs (interactive_event v config_ok).
Proof.
  intros Hv. repeat split; try done.
  intros st. simpl. by rewrite lookup_insert_ne.
Qed.

Lemma hoare_derive_pipeline (Q : event Stage → Prop) G n downstream :
  hoare Q (derive_pipeline (W:=W) G n downstream) (λ _, True).
Proof.
  unfold derive_pipeline. destruct (truthy downstream).
  - eapply hoare_bind; [apply hoare_graph_copy|]. intros H _.
    eapply hoare_bind; [apply hoare_graph_reverse_in_place|]. intros H' _.
    eapply hoare_bind; [apply hoare_graph_read|]. intros Hv _.
    by apply hoare_pure.
  - eapply hoare_bind; [apply hoare_graph_read|]. intros Gv _.
    by apply hoare_pure.
Qed.

Lemma hoare_reproduce_stages (Q : event Stage → Prop) G stages n downstream
    ibc kwargs :
  traversal_event kwargs Q →
  hoare Q (_reproduce_stages G stages n downstream ibc kwargs) (λ _, True).
Proof.
  intros HQ. unfold _reproduce_stages.
  eapply hoare_bind; [apply hoare_derive_pipeline|]. intros pipeline _.
  by apply hoare_reproduce_pipeline.
Qed.

Lemma hoare_reproduce_one v config_ok self target single_item kwargs :
  kwargs !! "interactive" = v →
  hoare (interactive_event v config_ok)
    (_reproduce self target single_item kwargs) (λ _, True).
Proof.
  intros Hv. unfold _reproduce.
  eapply hoare_bind; [by apply hoare_call|]. intros stage _.
  eapply hoare_bind; [by apply hoare_call|]. intros g _.
  eapply hoare_bind; [apply hoare_graph_new|]. intros G _.
  eapply hoare_bind; [apply hoare_graph_read|]. intros Gv _.
  destruct (truthy single_item).
  - apply hoare_reproduce_stage; try done.
  - simpl. apply hoare_reproduce_stages, interactive_traversal_event.
    by rewrite !lookup_delete_ne.
Qed.

Lemma hoare_reproduce_targets v config_ok self targets kwargs :
  kwargs !! "interactive" = v →
  ∀ ret, hoare (interactive_event v config_ok)
            (reproduce_targets self targets kwargs ret) (λ _, True).
Proof.
  intros Hv. induction targets as [|t targets IH]; intros ret; simpl.
  - by apply hoare_pure.
  - eapply hoare_bind; [|intros; apply IH].
    apply hoare_reproduce_one. by rewrite lookup_delete_ne.
Qed.

Lemma hoare_resolve_targets v config_ok self target recursive pipeline
    all_pipelines :
  hoare (interactive_event v config_ok)
    (resolve_targets self target recursive pipeline all_pipelines)
    (λ _, True).
Proof.
  unfold resolve_targets.
  eapply hoare_bind with (R := λ _, True).
  { destruct recursive; [|by apply hoare_pure].
    destruct target; [apply hoare_observe|apply hoare_raise]. }
  intros [] _.
  - eapply hoare_bind; [by apply hoare_call|]. intros G _.
    destruct (ending _); [apply hoare_raise|by apply hoare_pure].
  - destruct (pipeline || all_pipelines); [|by apply hoare_pure].
    eapply hoare_bind with (R := λ _, True); [|intros; by apply hoare_pure].
    destruct pipeline; [|by apply hoare_call].
    eapply hoare_bind; [by apply hoare_call|]. intros stage _.
    eapply hoare_bind; [by apply hoare_call|]. intros G _.
    by apply hoare_pure.
Qed.

(** C9, as the code has it.  The configured default takes the place of
    the caller's [interactive] whenever that is missing or falsy, an
    explicit False included.  A truthy [interactive] is used as the
    caller gave it, and then the configuration is not read. *)
Theorem interactive_default self target recursive pipeline all_pipelines
    kwargs σ :
  let explicit := truthy (kwargs_get kwargs "interactive") in
  let chosen :=
    if explicit then kwargs !! "interactive"
    else Some (default (PyBool false)
                 (config_core self !! SECTION_CORE_INTERACTIVE self)) in
  ∃ evs,
    trace (reproduce self target recursive pipeline all_pipelines kwargs σ).1
      = trace σ ++ evs
    ∧ Forall (λ ev, match ev with
                    | StageReproduce _ bag => bag !! "interactive" = chosen
                    | ConfigRead => explicit = false
                    | _ => True
                    end) evs.
Proof.
  intros explicit chosen.
  cut (hoare (interactive_event chosen (explicit = false))
         (reproduce self target recursive pipeline all_pipelines kwargs)
         (λ _, True)).
  { intros Hh. by destruct (Hh σ) as [? _]. }
  unfold reproduce. destruct (_ && _); [apply hoare_raise|].
  fold explicit.
  eapply hoare_bind with (R := λ bag, bag !! "interactive" = chosen).
  { unfold chosen. destruct explicit eqn:He; simpl.
    - by apply hoare_pure.
    - eapply hoare_bind; [by apply hoare_emit|]. intros _ _.
      apply hoare_pure. by rewrite lookup_insert_eq. }
  intros bag Hbag.
  eapply hoare_bind; [apply hoare_resolve_targets|]. intros targets _.
  apply hoare_with; [done..|]. by apply hoare_reproduce_targets.
Qed.
End RepoFacts.

(** ** Deciding the side conditions on a concrete graph *)

Definition rankedb (adj : adjacency) (rank : node → nat) : bool :=
  forallb (λ '(u, nbrs), forallb (λ v, rank v <? rank u) nbrs) adj.

(** The position of a node in a list, as a rank. *)
Fixpoint position (order : list node) (n : node) : nat :=
  match order with
  | [] => 0
  | x :: order' => if decide (x = n) then 0 else S (position order' n)
  end.

Lemma dict_get_Some_elem {V : Type} (d : list (node * V)) (k : node) (v : V) :
  dict_get d k = Some v → (k, v) ∈ d.
Proof.
  induction d as [|[k' v'] d IH]; simpl; [done|].
  case_decide; intros Hg.
  - injection Hg as <-. subst. apply list_elem_of_here.
  - apply list_elem_of_further. auto.
Qed.

Lemma edge_forallb (adj : adjacency) (P : node → node → bool) (u v : node) :
  forallb (λ '(u, nbrs), forallb (P u) nbrs) adj = true →
  edge adj u v → P u v = true.
Proof.
  intros Hall (nbrs & Hg & Hin).
  apply dict_get_Some_elem, list_elem_of_In in Hg.
  rewrite forallb_forall in Hall. specialize (Hall _ Hg). simpl in Hall.
  rewrite forallb_forall in Hall. apply Hall. by apply list_elem_of_In.
Qed.

Lemma rankedb_acyclic (adj : adjacency) (rank : node → nat) :
  rankedb adj rank = true → acyclic adj.
Proof.
  intros Hr. apply (ranked_acyclic adj rank). intros u v He.
  pose proof (edge_forallb adj (λ u v, rank v <? rank u) u v Hr He) as H.
  by apply Nat.ltb_lt in H.
Qed.

(** * The claims on concrete runs *)

(** C1 on the chain with a stage on every node, started at C. *)
Lemma forward_visits_postorder_witness :
  let G := toy_chain (changed "A") (changed "B") (changed "C") in
  let σ := start [G] in
  graphs σ !! 0 = Some G
  ∧ well_formed G ∧ acyclic (_succ G) ∧ "C" ∈ dict_keys (_node G)
  ∧ (∃ pipeline,
      _reproduce_stages 0 (get_node_attributes G) "C" (PyBool false)
        (PyBool false) ∅ σ
      = reproduce_pipeline (get_node_attributes G) (PyBool false) pipeline None
          ∅ [] σ
      ∧ NoDup pipeline
      ∧ last pipeline = Some "C"
      ∧ targets_first (_succ G) pipeline
      ∧ (∀ x, x ∈ pipeline ↔ rtc (edge (_succ G)) "C" x)
      ∧ let run := _reproduce_stages 0 (get_node_attributes G) "C"
                     (PyBool false) (PyBool false) ∅ σ in
        ∃ visited evs,
          visited `prefix_of` pipeline
          ∧ trace run.1 = trace σ ++ evs
          ∧ reproduced evs = omap (get_node_attributes G !!.) visited
          ∧ ∀ r, run.2 = Ok r → visited = pipeline)
  ∧ reproduced_paths
      (trace (_reproduce_stages 0 (get_node_attributes G) "C" (PyBool false)
                (PyBool false) ∅ σ).1)
    = ["A"; "B"; "C"].
Proof.
  intros G σ.
  assert (well_formed G) as Hwf.
  { apply graph_of_well_formed. }
  assert (acyclic (_succ G)) as Hacyclic.
  { apply (rankedb_acyclic _ (position ["A"; "B"; "C"])). vm_compute.
    reflexivity. }
  assert ("C" ∈ dict_keys (_node G)) as HC.
  { apply list_elem_of_In. vm_compute. auto. }
  split; [reflexivity|]. split; [exact Hwf|]. split; [exact Hacyclic|].
  split; [exact HC|]. split; [|vm_compute; reflexivity].
  apply (proj1 forward_visits_postorder 0 G); try assumption; reflexivity.
Defined.

(** C2, on the diamond.  Started downstream at A, the traversal
    reproduces A, B, D, C: D depends on C and is reproduced before it.
    On the chain the order is A, B, C, and the starting node always
    comes first. *)
Theorem downstream_reproduces_dependent_first :
  (let run := _reproduce_stages 0 (get_node_attributes toy_diamond) "A"
                (PyBool true) (PyBool false) ∅ (start [toy_diamond]) in
   reproduced_paths (trace run.1) = ["A"; "B"; "D"; "C"]
   ∧ edge (_succ toy_diamond) "D" "C")
  ∧ (let G := toy_chain (changed "A") (changed "B") (changed "C") in
     let run := _reproduce_stages 0 (get_node_attributes G) "A"
                  (PyBool true) (PyBool false) ∅ (start [G]) in
     reproduced_paths (trace run.1) = ["A"; "B"; "C"])
  ∧ (∀ (G : DiGraph toy_stage) (n : node),
       ∃ rest,
         yields (dfs_preorder_nodes (reverse_in_place (copy G)) (Some n))
         = n :: rest).
Proof.
  split; [split|split].
  - vm_compute. reflexivity.
  - exists ["B"; "C"]. split; [reflexivity|]. set_solver.
  - vm_compute. reflexivity.
  - intros G n. apply dfs_preorder_source_first.
Qed.

(** C3 on the chain: A reports a change under the cascade, so B is
    reproduced with [force] set. *)
Lemma force_flag_cascade_witness :
  let G := toy_chain (changed "A") (unchanged "B") (unchanged "C") in
  let stages := get_node_attributes G in
  let ibc := PyBool true in
  let σ1 := (reproduce_pipeline stages ibc ["A"] None ∅ [] (start [])).1 in
  reproduce_pipeline stages ibc ["A"] None ∅ [] (start [])
    = (σ1, Ok [changed "A"])
  ∧ stages !! "B" = Some (unchanged "B")
  ∧ trace σ1 ++ [StageReproduce (unchanged "B") {["force" := PyBool true]}]
    `prefix_of`
      trace (reproduce_pipeline stages ibc (["A"] ++ "B" :: ["C"]) None ∅ []
               (start [])).1.
Proof.
  intros G stages ibc σ1.
  assert (reproduce_pipeline stages ibc ["A"] None ∅ [] (start [])
          = (σ1, Ok [changed "A"])) as Hpre by (vm_compute; reflexivity).
  assert (stages !! "B" = Some (unchanged "B")) as HB
    by (vm_compute; reflexivity).
  split; [exact Hpre|]. split; [exact HB|].
  exact (proj1 (proj2 (force_flag_cascade stages ibc ["A"] "B" ["C"] None ∅
                         (start []) σ1 [changed "A"] (unchanged "B") Hpre HB))).
Defined.

(** C3 as stated fails: with [ignore_build_cache] set and no [force]
    given, the first node is reproduced with [force] unset. *)
Lemma force_is_not_ignore_build_cache :
  let G := toy_chain (changed "A") (changed "B") (changed "C") in
  let ignore_build_cache := PyBool true in
  let run := _reproduce_stages 0 (get_node_attributes G) "C" (PyBool false)
               ignore_build_cache ∅ (start [G]) in
  ∃ st bag rest,
    trace run.1 = StageReproduce st bag :: rest
    ∧ kwargs_get bag "force" ≠ ignore_build_cache.
Proof.
  eexists _, _, _. split; [vm_compute; reflexivity|]. vm_compute. discriminate.
Qed.

(** C4 on the chain: B raises, C is not reproduced, and what A left
    in the journal stays. *)
Lemma failure_stops_traversal_witness :
  let G := toy_chain (changed "A") (failing "B") (changed "C") in
  let stages := get_node_attributes G in
  let ibc := PyBool true in
  let σ1 := (reproduce_pipeline stages ibc ["A"] None ∅ [] (start [])).1 in
  let σ2 := (_reproduce_stage stages "B"
               (cascaded ibc ∅ [] [changed "A"]) σ1).1 in
  reproduce_pipeline stages ibc ["A"] None ∅ [] (start [])
    = (σ1, Ok [changed "A"])
  ∧ stages !! "B" = Some (failing "B")
  ∧ _reproduce_stage stages "B" (cascaded ibc ∅ [] [changed "A"]) σ1
    = (σ2, Raise (OtherException "B"))
  ∧ reproduce_pipeline stages ibc (["A"] ++ "B" :: ["C"]) None ∅ [] (start [])
    = (σ2, Raise (ReproductionError "B" (OtherException "B")))
  ∧ reproduced_paths (trace σ2) = ["A"; "B"]
  ∧ world σ2 = ["run A"; "dump A"].
Proof.
  intros G stages ibc σ1 σ2.
  assert (reproduce_pipeline stages ibc ["A"] None ∅ [] (start [])
          = (σ1, Ok [changed "A"])) as Hpre by (vm_compute; reflexivity).
  assert (stages !! "B" = Some (failing "B")) as HB
    by (vm_compute; reflexivity).
  assert (_reproduce_stage stages "B" (cascaded ibc ∅ [] [changed "A"]) σ1
          = (σ2, Raise (OtherException "B"))) as Hfail
    by (vm_compute; reflexivity).
  split; [exact Hpre|]. split; [exact HB|]. split; [exact Hfail|].
  split; [|split; vm_compute; reflexivity].
  exact (proj1 (failure_stops_traversal stages ibc ["A"] "B" ["C"] None ∅
                  (start []) σ1 σ2 [changed "A"] (failing "B")
                  (OtherException "B") Hpre HB Hfail)).
Defined.

(** C6 on a locked stage that has changed, without and with [dry]. *)
Lemma reproduce_stage_contract_witness :
  let st := ToyStage "A" true true false in
  let stages : gmap node toy_stage := {["A" := st]} in
  stages !! "A" = Some st
  ∧ stage_reproduce st ∅ (world (start [])) = (["run A"], Ok (Some st))
  ∧ _reproduce_stage stages "A" ∅ (start [])
    = (mkState ["run A"; "dump A"] []
         [LogWarning (locked_warning st); StageReproduce st ∅; StageDump st],
       Ok [st])
  ∧ trace (_reproduce_stage stages "A" {["dry" := PyBool true]} (start [])).1
    = [LogWarning (locked_warning st);
       StageReproduce st {["dry" := PyBool true]}].
Proof.
  intros st stages.
  assert (stages !! "A" = Some st) as HA by (vm_compute; reflexivity).
  assert (∀ bag, stage_reproduce st bag (world (start []))
                 = (["run A"], Ok (Some st))) as Hr by reflexivity.
  assert (stage_dump st ["run A"] = (["run A"; "dump A"], Ok ())) as Hd
    by reflexivity.
  assert (truthy (kwargs_get ∅ "dry") = false) as Hwet by reflexivity.
  assert (truthy (kwargs_get {["dry" := PyBool true]} "dry") = true) as Hdry
    by (vm_compute; reflexivity).
  split; [exact HA|]. split; [exact (Hr ∅)|]. split.
  - destruct (reproduce_stage_contract stages "A" ∅ st (start [])
                ["run A"] (Ok (Some st)) HA (Hr ∅)) as (_ & _ & Hdump & _).
    exact (Hdump st eq_refl Hwet ["run A"; "dump A"] (Ok ()) Hd).
  - destruct (reproduce_stage_contract stages "A" {["dry" := PyBool true]} st
                (start []) ["run A"] (Ok (Some st)) HA (Hr _))
      as (_ & _ & _ & _ & Hdone).
    exact (Hdone Hdry).
Defined.

(** C7 on the chain, with a traversal that fails at B. *)
Lemma downstream_keeps_graph_witness :
  let G := toy_chain (changed "A") (failing "B") (changed "C") in
  let σ := start [G] in
  let σ' := (_reproduce_stages 0 (get_node_attributes G) "A" (PyBool true)
               (PyBool false) ∅ σ).1 in
  graphs σ !! 0 = Some G ∧ truthy (PyBool true) = true
  ∧ graphs σ' !! 0 = Some G
  ∧ graphs σ' = [G; reverse_in_place (copy G)].
Proof.
  intros G σ σ'. split; [reflexivity|]. split; [reflexivity|].
  exact (downstream_keeps_graph 0 G (get_node_attributes G) "A" (PyBool true)
           (PyBool false) ∅ σ eq_refl eq_refl).
Defined.

(** C8 with no target, whatever the other options. *)
Lemma no_target_is_rejected_witness :
  let self := toy_repo (toy_pair (changed "X") (changed "Y")) ∅ in
  no_target None = true
  ∧ reproduce self None true true false {["force" := PyBool true]} (start [])
    = (start [], Raise ValueError).
Proof.
  intros self. split; [reflexivity|].
  exact (no_target_is_rejected self None true true
           {["force" := PyBool true]} (start []) eq_refl).
Defined.

(** C10 on the chain: the single item B raises, and the cascade option
    in the bag changes nothing. *)
Lemma single_item_is_one_stage_witness :
  let G := toy_chain (changed "A") (failing "B") (changed "C") in
  let self := toy_repo G ∅ in
  let bag : gmap string pyval := {["ignore_build_cache" := PyBool true]} in
  truthy (PyBool true) = true
  ∧ Stage_load (Some "B") (world (start [])) = ([], Ok (unchanged "B"))
  ∧ repo_graph self None [] = ([], Ok G)
  ∧ get_node_attributes G !! "B" = Some (failing "B")
  ∧ _reproduce self (Some "B") (PyBool true) bag (start [])
    = (mkState [] [G]
         [StageLoad (Some "B"); RepoGraph None;
          StageReproduce (failing "B") bag],
       Raise (OtherException "B")).
Proof.
  intros G self bag.
  assert (get_node_attributes G !! "B" = Some (failing "B")) as HB
    by (vm_compute; reflexivity).
  assert (Stage_load (Some "B") (world (start [])) = ([], Ok (unchanged "B")))
    as Hload by reflexivity.
  assert (repo_graph self None [] = ([], Ok G)) as Hgraph by reflexivity.
  assert (stage_reproduce (failing "B") bag [] = ([], Raise (OtherException "B")))
    as Hraises by reflexivity.
  split; [reflexivity|]. split; [exact Hload|]. split; [exact Hgraph|].
  split; [exact HB|].
  destruct (single_item_is_one_stage self (Some "B") (PyBool true) bag
              (start []) (unchanged "B") [] G [] (failing "B")
              eq_refl Hload Hgraph HB) as (_ & _ & Hraise).
  exact (Hraise [] (OtherException "B") Hraises).
Defined.

(** C5 on two independent stages: X raises and Y is not attempted. *)
Lemma failure_aborts_remaining_targets_witness :
  let G := toy_pair (failing "X") (changed "Y") in
  let self := toy_repo G ∅ in
  let σ2 := (_reproduce self (Some "X") (PyBool false) ∅ (start [])).1 in
  reproduce_targets self [] ∅ [] (start []) = (start [], Ok [])
  ∧ _reproduce self (Some "X") (kwargs_get ∅ "single_item")
      (delete "single_item" ∅) (start [])
    = (σ2, Raise (ReproductionError "X" (OtherException "X")))
  ∧ reproduce_targets self ([] ++ Some "X" :: [Some "Y"]) ∅ [] (start [])
    = (σ2, Raise (ReproductionError "X" (OtherException "X")))
  ∧ reproduced_paths (trace σ2) = ["X"].
Proof.
  intros G self σ2.
  assert (_reproduce self (Some "X") (kwargs_get ∅ "single_item")
            (delete "single_item" ∅) (start [])
          = (σ2, Raise (ReproductionError "X" (OtherException "X")))) as Hfail
    by (vm_compute; reflexivity).
  split; [reflexivity|]. split; [exact Hfail|]. split; [|vm_compute; reflexivity].
  assert (reproduce_targets self [] ∅ [] (start []) = (start [], Ok []))
    as Hpre by reflexivity.
  exact (proj1 (failure_aborts_remaining_targets self [] (Some "X") [Some "Y"]
                  ∅ (start []) (start []) σ2 []
                  (ReproductionError "X" (OtherException "X"))
                  Hpre Hfail)).
Defined.

(** C5 as stated fails: in all-pipelines mode over two independent
    stages, both are starting points; the first fails and the second is
    never loaded, let alone reproduced. *)
Lemma later_targets_are_not_attempted :
  let G := toy_pair (failing "X") (changed "Y") in
  let self := toy_repo G ∅ in
  let run := reproduce self None false false true ∅ (start []) in
  (resolve_targets self None false false true (start [])).2
    = Ok [Some "X"; Some "Y"]
  ∧ run.2 = Raise (ReproductionError "X" (OtherException "X"))
  ∧ trace run.1
    = [ConfigRead; RepoPipelines; StateEnter; StageLoad (Some "X");
       RepoGraph None;
       StageReproduce (failing "X") {["interactive" := PyBool false]};
       StateExit]
  ∧ StageLoad (Some "Y") ∉ trace run.1.
Proof.
  intros G self run.
  assert (trace run.1
          = [ConfigRead; RepoPipelines; StateEnter; StageLoad (Some "X");
             RepoGraph None;
             StageReproduce (failing "X") {["interactive" := PyBool false]};
             StateExit]) as Htrace by (vm_compute; reflexivity).
  split; [vm_compute; reflexivity|]. split; [vm_compute; reflexivity|].
  split; [exact Htrace|]. rewrite Htrace.
  intros Hin. repeat (apply elem_of_cons in Hin as [Hin|Hin]; [discriminate|]).
  by apply elem_of_nil in Hin.
Qed.

(** C9 as stated fails: the caller passes [interactive=False], the
    configuration says True, and the stage is reproduced with True. *)
Lemma explicit_false_is_overridden :
  let G := toy_pair (changed "X") (changed "Y") in
  let self := toy_repo G {["interactive" := PyBool true]} in
  let caller : gmap string pyval := {["interactive" := PyBool false]} in
  let run := reproduce self (Some "X") false false false caller (start []) in
  caller !! "interactive" = Some (PyBool false)
  ∧ trace run.1
    = [ConfigRead; StateEnter; StageLoad (Some "X"); RepoGraph None;
       StageReproduce (changed "X") {["interactive" := PyBool true]};
       StageDump (changed "X"); StateExit].
Proof. split; vm_compute; reflexivity. Qed.

(** * Further properties of the scheduler *)

(** ** Failures and results of one traversal *)

Section TraversalOutcomes.
Context {W Stage : Type} `{!StageClass W Stage}.
Implicit Types (σ : state W Stage) (stages : gmap node Stage).
Implicit Types (kwargs : gmap string pyval) (result : list Stage).

(** The stages handed to persistence, in the order of the trace. *)
Definition persisted (tr : list (event Stage)) : list Stage :=
  omap (λ ev, match ev with
              | StageDump st => Some st
              | _ => None
              end) tr.

Lemma persisted_app (tr tr' : list (event Stage)) :
  persisted (tr ++ tr') = persisted tr ++ persisted tr'.
Proof. apply omap_app. Qed.

Lemma persisted_warned (stage : Stage) : persisted (warned stage) = [].
Proof. unfold warned. by destruct (locked stage). Qed.


(** X1.  A node that has no stage ends the traversal with the bare
    [KeyError] of the lookup, not with a [ReproductionError]: nothing is
    done for that node or for the nodes after it, and the state is the
    one the nodes before it left. *)
Theorem node_without_stage_raises_key_error stages ibc pre n post stop kwargs
    σ σ1 result1 :
  reproduce_pipeline stages ibc pre None kwargs [] σ = (σ1, Ok result1) →
  stages !! n = None →
  reproduce_pipeline stages ibc (pre ++ n :: post) stop kwargs [] σ
  = (σ1, Raise (KeyError n)).
Proof.
  intros Hpre Hn.
  pose proof (reproduce_pipeline_prefix stages ibc pre kwargs [] σ) as Hsplit.
  rewrite Hpre in Hsplit. destruct Hsplit as [_ ->].
  simpl. unfold bind at 1, visit, try_except, bind at 1.
  rewrite (reproduce_stage_missing _ _ _ _ Hn).
  unfold bind, subscript. by rewrite Hn.
Qed.


(** A node contributes at most one stage. *)
Lemma reproduce_stage_length stages n kwargs σ σ' ret :
  _reproduce_stage stages n kwargs σ = (σ', Ok ret) → length ret ≤ 1.
Proof.
  destruct (stages !! n) as [stage|] eqn:Hn.
  - rewrite (reproduce_stage_unfold _ _ _ _ _ Hn).
    destruct (stage_reproduce stage kwargs (world σ)) as [w [[stage'|]|ex]].
    + destruct (truthy _).
      * intros [= <- <-]. simpl. lia.
      * destruct (stage_dump stage' w) as [w' [[]|ex]]; [|discriminate].
        intros [= <- <-]. simpl. lia.
    + intros [= <- <-]. simpl. lia.
    + discriminate.
  - by rewrite (reproduce_stage_missing _ _ _ _ Hn).
Qed.

(** A traversal only ever appends to its result, and by at most one
    stage per node of the sequence. *)
Lemma traversal_result_grows stages ibc pipeline stop :
  ∀ kwargs result σ σ' r,
    reproduce_pipeline stages ibc pipeline stop kwargs result σ = (σ', Ok r) →
    result `prefix_of` r ∧ length r ≤ length result + length pipeline.
Proof.
  induction pipeline as [|n pipeline IH]; intros kwargs result σ σ' r; simpl.
  - destruct stop; [discriminate|]. intros [= <- <-]. split; [done|lia].
  - unfold bind at 1.
    destruct (visit stages ibc n kwargs result σ)
      as [σ1 [[kwargs1 result1]|ex1]] eqn:Hvisit; [|discriminate].
    intros Hrest. destruct (IH _ _ _ _ _ Hrest) as [Hpre Hlen].
    apply visit_ok in Hvisit as (ret & Hstage & -> & _).
    apply reproduce_stage_length in Hstage.
    split.
    + etrans; [|exact Hpre]. by apply prefix_app_r.
    + rewrite length_app in Hlen. lia.
Qed.

Lemma cascaded_lookup ibc kwargs result result' (key : string) :
  key ≠ "force" → cascaded ibc kwargs result result' !! key = kwargs !! key.
Proof.
  intros Hk. unfold cascaded. destruct (_ && _); [|done].
  by rewrite lookup_insert_ne.
Qed.

Lemma reproduce_stage_persisted stages n kwargs σ σ' ret :
  truthy (kwargs_get kwargs "dry") = false →
  _reproduce_stage stages n kwargs σ = (σ', Ok ret) →
  ∃ evs, trace σ' = trace σ ++ evs ∧ persisted evs = ret.
Proof.
  intros Hdry. destruct (stages !! n) as [stage|] eqn:Hn.
  - rewrite (reproduce_stage_unfold _ _ _ _ _ Hn), Hdry.
    destruct (stage_reproduce stage kwargs (world σ)) as [w [[stage'|]|ex]].
    + destruct (stage_dump stage' w) as [w' [[]|ex]]; [|discriminate].
      intros [= <- <-]. simpl. rewrite <- !app_assoc. eexists. split; [done|].
      by rewrite !persisted_app, persisted_warned.
    + intros [= <- <-]. eexists. split; [done|].
      by rewrite !persisted_app, persisted_warned.
    + discriminate.
  - by rewrite (reproduce_stage_missing _ _ _ _ Hn).
Qed.

(** Outside dry mode, what a traversal adds to its result is what it
    has persisted, in the same order. *)
Lemma reproduce_pipeline_persisted stages ibc pipeline stop :
  ∀ kwargs result σ σ' r,
    truthy (kwargs_get kwargs "dry") = false →
    reproduce_pipeline stages ibc pipeline stop kwargs result σ = (σ', Ok r) →
    ∃ evs, trace σ' = trace σ ++ evs ∧ r = result ++ persisted evs.
Proof.
  induction pipeline as [|n pipeline IH]; intros kwargs result σ σ' r Hdry;
    simpl.
  - destruct stop; [discriminate|]. intros [= <- <-]. exists [].
    by rewrite !app_nil_r.
  - unfold bind at 1.
    destruct (visit stages ibc n kwargs result σ)
      as [σ1 [[kwargs1 result1]|ex1]] eqn:Hvisit; [|discriminate].
    intros Hrest.
    apply visit_ok in Hvisit as (ret & Hstage & -> & ->).
    destruct (reproduce_stage_persisted _ _ _ _ _ _ Hdry Hstage)
      as (evs1 & Htr1 & Hevs1).
    destruct (IH _ _ _ _ _ ltac:(unfold kwargs_get in *;
                                  by rewrite cascaded_lookup) Hrest)
      as (evs2 & Htr2 & ->).
    exists (evs1 ++ evs2). split; [by rewrite Htr2, Htr1, app_assoc|].
    by rewrite persisted_app, Hevs1, app_assoc.
Qed.

(** X3.  Without [ignore_build_cache] there is no cascade: every stage
    of the traversal is reproduced with exactly the bag the traversal
    was given. *)
Theorem no_cascade_without_ignore_build_cache stages ibc pipeline stop :
  truthy ibc = false →
  ∀ kwargs result σ,
    ∃ evs,
      trace (reproduce_pipeline stages ibc pipeline stop kwargs result σ).1
        = trace σ ++ evs
      ∧ Forall (λ ev, ∀ st bag, ev = StageReproduce st bag → bag = kwargs) evs.
Proof.
  intros Hibc kwargs result σ.
  cut (hoare (λ ev, ∀ st bag, ev = StageReproduce st bag → bag = kwargs)
         (reproduce_pipeline stages ibc pipeline stop kwargs result)
         (λ _, True)).
  { intros Hh. by destruct (Hh σ) as [? _]. }
  revert result. induction pipeline as [|n pipeline IH]; intros result; simpl.
  - destruct stop; [apply hoare_raise|by apply hoare_pure].
  - eapply hoare_bind with (R := λ r, r.1 = kwargs).
    + unfold visit. apply hoare_try_except.
      * eapply hoare_bind.
        { apply hoare_reproduce_stage; try done. by intros st st' bag [= _ <-]. }
        intros ret _. apply hoare_pure. simpl.
        by rewrite Hibc, andb_false_r.
      * intros ex. eapply hoare_bind with (R := λ _, True).
        { unfold subscript. destruct (stages !! n);
            [by apply hoare_pure|apply hoare_raise]. }
        intros. apply hoare_raise.
    + intros [kwargs1 result1] Hr. simpl in Hr. subst kwargs1. apply IH.
Qed.
End TraversalOutcomes.

(** ** Whole runs *)

Section RunFacts.
Context {W Stage : Type} `{!StageClass W Stage}.
Implicit Types (σ : state W Stage) (self : Repo W Stage).
Implicit Types (kwargs bag : gmap string pyval).

(** Events that do not come from a stage. *)
Definition quiet (ev : event Stage) : Prop :=
  match ev with
  | LogWarning _ | StageReproduce _ _ | StageDump _ => False
  | _ => True
  end.

(** Events of the resolution of the starting points. *)
Definition resolving (ev : event Stage) : Prop :=
  match ev with
  | StageLoad _ | RepoGraph _ | RepoGetPipeline _ | RepoPipelines => True
  | _ => False
  end.

Lemma hoare_resolve_targets_resolving (Q : event Stage → Prop) self target
    recursive pipeline all_pipelines :
  (∀ ev, resolving ev → Q ev) →
  hoare Q (resolve_targets self target recursive pipeline all_pipelines)
    (λ _, True).
Proof.
  intros HQ. unfold resolve_targets.
  eapply hoare_bind with (R := λ _, True).
  { destruct recursive; [|by apply hoare_pure].
    destruct target; [apply hoare_observe|apply hoare_raise]. }
  intros [] _.
  - eapply hoare_bind; [by apply hoare_call, HQ|]. intros G _.
    destruct (ending _); [apply hoare_raise|by apply hoare_pure].
  - destruct (pipeline || all_pipelines); [|by apply hoare_pure].
    eapply hoare_bind with (R := λ _, True); [|intros; by apply hoare_pure].
    destruct pipeline; [|by apply hoare_call, HQ].
    eapply hoare_bind; [by apply hoare_call, HQ|]. intros stage _.
    eapply hoare_bind; [by apply hoare_call, HQ|]. intros G _.
    by apply hoare_pure.
Qed.

(** *** A property of the bags that survives the run

    [I] is a property of option bags that setting [force] and taking
    out the named parameters keep, and [Q] a property of events that
    holds of every event the scheduler can emit on behalf of a bag
    satisfying [I]. *)
Section Bags.
Variable I : gmap string pyval → Prop.
Variable Q : event Stage → Prop.
Hypothesis Q_quiet : ∀ ev, quiet ev → Q ev.
Hypothesis Q_resolving : ∀ ev, resolving ev → Q ev.
Hypothesis Q_warning : ∀ msg, Q (LogWarning msg).
Hypothesis Q_reproduce : ∀ st bag, I bag → Q (StageReproduce st bag).
Hypothesis Q_dump :
  ∀ st bag, I bag → truthy (kwargs_get bag "dry") = false → Q (StageDump st).
Hypothesis I_force : ∀ bag, I bag → I (<["force" := PyBool true]> bag).
Hypothesis I_downstream : ∀ bag, I bag → I (delete "downstream" bag).
Hypothesis I_ignore_build_cache :
  ∀ bag, I bag → I (delete "ignore_build_cache" bag).

Lemma run_reproduce_stage stages n bag :
  I bag → hoare Q (_reproduce_stage stages n bag) (λ _, True).
Proof.
  intros HI. unfold _reproduce_stage.
  eapply hoare_bind with (R := λ _, True).
  { unfold subscript. destruct (stages !! n);
      [by apply hoare_pure|apply hoare_raise]. }
  intros stage _. eapply hoare_bind with (R := λ _, True).
  { destruct (locked stage); [by apply hoare_emit|by apply hoare_pure]. }
  intros _ _. eapply hoare_bind; [by apply hoare_call, Q_reproduce|].
  intros [stage'|] _; [|by apply hoare_pure].
  eapply hoare_bind with (R := λ _, True); [|intros; by apply hoare_pure].
  destruct (truthy (kwargs_get bag "dry")) eqn:Hdry; simpl;
    [by apply hoare_pure|].
  apply hoare_call. by eapply Q_dump.
Qed.

Lemma run_reproduce_pipeline stages ibc pipeline stop :
  ∀ bag result,
    I bag → hoare Q (reproduce_pipeline stages ibc pipeline stop bag result)
              (λ _, True).
Proof.
  induction pipeline as [|n pipeline IH]; intros bag result HI; simpl.
  - destruct stop; [apply hoare_raise|by apply hoare_pure].
  - eapply hoare_bind with (R := λ r, I r.1).
    + unfold visit. apply hoare_try_except.
      * eapply hoare_bind; [by apply run_reproduce_stage|].
        intros ret _. apply hoare_pure. simpl. destruct (_ && _); auto.
      * intros ex. eapply hoare_bind with (R := λ _, True).
        { unfold subscript. destruct (stages !! n);
            [by apply hoare_pure|apply hoare_raise]. }
        intros. apply hoare_raise.
    + intros [bag1 result1] HI1. by apply IH.
Qed.

Lemma run_reproduce_one self target single_item bag :
  I bag → hoare Q (_reproduce self target single_item bag) (λ _, True).
Proof.
  intros HI. unfold _reproduce.
  eapply hoare_bind; [by apply hoare_call, Q_resolving|]. intros stage _.
  eapply hoare_bind; [by apply hoare_call, Q_resolving|]. intros g _.
  eapply hoare_bind; [apply hoare_graph_new|]. intros G _.
  eapply hoare_bind; [apply hoare_graph_read|]. intros Gv _.
  destruct (truthy single_item); [by apply run_reproduce_stage|].
  simpl. unfold _reproduce_stages.
  eapply hoare_bind; [apply hoare_derive_pipeline|]. intros pipeline _.
  by apply run_reproduce_pipeline, I_ignore_build_cache, I_downstream.
Qed.

Lemma run_reproduce_targets self targets kwargs :
  I (delete "single_item" kwargs) →
  ∀ ret, hoare Q (reproduce_targets self targets kwargs ret) (λ _, True).
Proof.
  intros HI. induction targets as [|t targets IH]; intros ret; simpl.
  - by apply hoare_pure.
  - eapply hoare_bind; [|intros; apply IH]. by apply run_reproduce_one.
Qed.

Lemma run_reproduce self target recursive pipeline all_pipelines kwargs :
  I (delete "single_item" kwargs) →
  (∀ v, I (delete "single_item" (<["interactive" := v]> kwargs))) →
  hoare Q (reproduce self target recursive pipeline all_pipelines kwargs)
    (λ _, True).
Proof.
  intros HI HI'. unfold reproduce. destruct (_ && _); [apply hoare_raise|].
  eapply hoare_bind with (R := λ bag, I (delete "single_item" bag)).
  { destruct (negb _).
    - eapply hoare_bind; [by apply hoare_emit, Q_quiet|]. intros _ _.
      by apply hoare_pure.
    - by apply hoare_pure. }
  intros bag Hbag.
  eapply hoare_bind; [by apply hoare_resolve_targets_resolving|].
  intros targets _.
  apply hoare_with; [by apply Q_quiet..|]. by apply run_reproduce_targets.
Qed.
End Bags.

(** X4.  In dry mode nothing is ever persisted, whatever the mode of
    the run, the number of starting points and the number of stages that
    report a change. *)
Theorem dry_run_never_persists self target recursive pipeline all_pipelines
    kwargs σ :
  truthy (kwargs_get kwargs "dry") = true →
  ∃ evs,
    trace (reproduce self target recursive pipeline all_pipelines kwargs σ).1
      = trace σ ++ evs
    ∧ Forall (λ ev, ∀ st, ev ≠ StageDump st) evs.
Proof.
  intros Hdry.
  cut (hoare (λ ev, ∀ st, ev ≠ StageDump st)
         (reproduce self target recursive pipeline all_pipelines kwargs)
         (λ _, True)).
  { intros Hh. by destruct (Hh σ) as [? _]. }
  apply (run_reproduce (λ bag, truthy (kwargs_get bag "dry") = true)).
  - by intros [].
  - by intros [].
  - done.
  - done.
  - intros st bag Hbag Hwet. congruence.
  - intros bag. unfold kwargs_get. by rewrite lookup_insert_ne.
  - intros bag. unfold kwargs_get. by rewrite lookup_delete_ne.
  - intros bag. unfold kwargs_get. by rewrite lookup_delete_ne.
  - unfold kwargs_get in *. by rewrite lookup_delete_ne.
  - intros v. unfold kwargs_get in *.
    by rewrite lookup_delete_ne, lookup_insert_ne.
Qed.

(** The names the scheduler binds or sets itself. *)
Definition scheduler_options : list string :=
  ["single_item"; "downstream"; "ignore_build_cache"; "force"; "interactive"].

(** X5.  Every option the scheduler does not bind or set itself reaches
    every stage reproduction exactly as the caller gave it (or not at
    all, if the caller gave none), and [single_item] reaches none. *)
Theorem options_pass_through self target recursive pipeline all_pipelines
    kwargs σ :
  ∃ evs,
    trace (reproduce self target recursive pipeline all_pipelines kwargs σ).1
      = trace σ ++ evs
    ∧ Forall (λ ev, ∀ st bag, ev = StageReproduce st bag →
                bag !! "single_item" = None
                ∧ ∀ key, key ∉ scheduler_options →
                         bag !! key = kwargs !! key) evs.
Proof.
  cut (hoare (λ ev, ∀ st bag, ev = StageReproduce st bag →
                bag !! "single_item" = None
                ∧ ∀ key, key ∉ scheduler_options → bag !! key = kwargs !! key)
         (reproduce self target recursive pipeline all_pipelines kwargs)
         (λ _, True)).
  { intros Hh. by destruct (Hh σ) as [? _]. }
  assert (∀ key, key ∉ scheduler_options →
            key ≠ "single_item" ∧ key ≠ "downstream"
            ∧ key ≠ "ignore_build_cache" ∧ key ≠ "force"
            ∧ key ≠ "interactive") as Hkeys.
  { intros key Hkey. unfold scheduler_options in Hkey.
    repeat split; intros ->; apply Hkey; set_solver. }
  apply (run_reproduce
           (λ bag, bag !! "single_item" = None
                   ∧ ∀ key, key ∉ scheduler_options →
                            bag !! key = kwargs !! key)).
  - by intros [].
  - by intros [].
  - done.
  - intros st bag HI st' bag' [= _ <-]. exact HI.
  - done.
  - intros bag [Hs Hk]. split; [by rewrite lookup_insert_ne|].
    intros key Hkey. destruct (Hkeys key Hkey) as (? & ? & ? & ? & ?).
    rewrite lookup_insert_ne by done. by apply Hk.
  - intros bag [Hs Hk]. split; [by rewrite lookup_delete_ne|].
    intros key Hkey. destruct (Hkeys key Hkey) as (? & ? & ? & ? & ?).
    rewrite lookup_delete_ne by done. by apply Hk.
  - intros bag [Hs Hk]. split; [by rewrite lookup_delete_ne|].
    intros key Hkey. destruct (Hkeys key Hkey) as (? & ? & ? & ? & ?).
    rewrite lookup_delete_ne by done. by apply Hk.
  - split; [by rewrite lookup_delete_eq|].
    intros key Hkey. destruct (Hkeys key Hkey) as (? & ? & ? & ? & ?).
    by rewrite lookup_delete_ne.
  - intros v. split; [by rewrite lookup_delete_eq|].
    intros key Hkey. destruct (Hkeys key Hkey) as (? & ? & ? & ? & ?).
    by rewrite lookup_delete_ne, lookup_insert_ne.
Qed.
End RunFacts.

(** ** Named options, the state context, and early failures *)

Section RunStructure.
Context {W Stage : Type} `{!StageClass W Stage}.
Implicit Types (σ : state W Stage) (self : Repo W Stage).
Implicit Types (kwargs bag : gmap string pyval).

(** X6.  In a traversal, [downstream] and [ignore_build_cache] are
    taken out of the bag by [_reproduce_stages]: no stage reproduction
    receives either of them. *)
Theorem traversal_consumes_named_options self target single_item kwargs σ :
  truthy single_item = false →
  ∃ evs,
    trace (_reproduce self target single_item kwargs σ).1 = trace σ ++ evs
    ∧ Forall (λ ev, ∀ st bag, ev = StageReproduce st bag →
                bag !! "downstream" = None
                ∧ bag !! "ignore_build_cache" = None) evs.
Proof.
  intros Hsi.
  cut (hoare (λ ev, ∀ st bag, ev = StageReproduce st bag →
                bag !! "downstream" = None
                ∧ bag !! "ignore_build_cache" = None)
         (_reproduce self target single_item kwargs) (λ _, True)).
  { intros Hh. by destruct (Hh σ) as [? _]. }
  unfold _reproduce. rewrite Hsi.
  eapply hoare_bind; [by apply hoare_call|]. intros stage _.
  eapply hoare_bind; [by apply hoare_call|]. intros g _.
  eapply hoare_bind; [apply hoare_graph_new|]. intros G _.
  eapply hoare_bind; [apply hoare_graph_read|]. intros Gv _.
  simpl. unfold _reproduce_stages.
  eapply hoare_bind; [apply hoare_derive_pipeline|]. intros pipeline _.
  apply (run_reproduce_pipeline
           (λ bag, bag !! "downstream" = None
                   ∧ bag !! "ignore_build_cache" = None)).
  - done.
  - intros st bag HI st' bag' [= _ <-]. exact HI.
  - done.
  - intros bag [Hd Hi]. by rewrite !lookup_insert_ne.
  - split; [|by rewrite lookup_delete_eq].
    by rewrite lookup_delete_ne, lookup_delete_eq.
Qed.

(** *** The state context *)

(** The shape of the events of a run: some events that come from no
    stage and, unless the run fails before, the state context entered,
    the events inside it, and the context left. *)
Definition in_state_context {T} (m : M W Stage T) : Prop :=
  ∀ σ, ∃ before,
    Forall (λ ev, quiet ev ∧ ev ≠ StateEnter ∧ ev ≠ StateExit) before
    ∧ ((∃ ex, m σ = ((m σ).1, Raise ex)) ∧ trace (m σ).1 = trace σ ++ before
       ∨ ∃ inside,
           trace (m σ).1
           = trace σ ++ before ++ [StateEnter] ++ inside ++ [StateExit]
           ∧ Forall (λ ev, ev ≠ StateEnter ∧ ev ≠ StateExit
                           ∧ ev ≠ ConfigRead) inside).

Lemma in_state_context_raise {T} (ex : exn) :
  in_state_context (raise (T := T) ex).
Proof.
  intros σ. exists []. split; [done|]. left. split; [by exists ex|].
  by rewrite app_nil_r.
Qed.

Lemma in_state_context_bind {T U} (m : M W Stage T) (k : T → M W Stage U)
    (R : T → Prop) :
  hoare (λ ev, quiet ev ∧ ev ≠ StateEnter ∧ ev ≠ StateExit) m R →
  (∀ v, R v → in_state_context (k v)) →
  in_state_context (bind m k).
Proof.
  intros Hm Hk σ. unfold bind.
  destruct (Hm σ) as [(evs & Htr & Hevs) HR].
  destruct (m σ) as [σ1 [v|ex]]; simpl in *.
  - destruct (Hk v (HR v eq_refl) σ1) as (before & Hbefore & Hshape).
    exists (evs ++ before). split; [by apply Forall_app|].
    destruct Hshape as [[Hex Hshape]|(inside & Hshape & Hinside)].
    + left. split; [done|]. by rewrite Hshape, Htr, app_assoc.
    + right. exists inside. split; [|done].
      by rewrite Hshape, Htr, <- !app_assoc.
  - exists evs. split; [done|]. left. split; [by exists ex|done].
Qed.

Lemma in_state_context_with {T} (enter exit : W → W) (body : M W Stage T) :
  hoare (λ ev, ev ≠ StateEnter ∧ ev ≠ StateExit ∧ ev ≠ ConfigRead) body
    (λ _, True) →
  in_state_context (with_ StateEnter StateExit enter exit body).
Proof.
  intros Hb σ. exists []. split; [done|]. right. unfold with_.
  set (σ1 := mkState (enter (world σ)) (graphs σ) (trace σ ++ [StateEnter])).
  destruct (Hb σ1) as [(evs & Htr & Hevs) _].
  destruct (body σ1) as [σ2 r]. simpl in *. exists evs.
  split; [|done]. by rewrite Htr, <- !app_assoc.
Qed.

(** X7.  Every stage is reproduced and persisted inside the state
    context, and a context that was entered is left, once, as the last
    thing the run does, whether the run returns or raises.  Outside the
    context the run only reads the configuration and resolves the
    starting points. *)
Theorem stages_run_inside_state_context self target recursive pipeline
    all_pipelines kwargs :
  in_state_context
    (reproduce self target recursive pipeline all_pipelines kwargs).
Proof.
  unfold reproduce. destruct (_ && _); [apply in_state_context_raise|].
  eapply in_state_context_bind with (R := λ _, True).
  { destruct (negb _); [|by apply hoare_pure].
    eapply hoare_bind; [by apply hoare_emit|]. intros _ _. by apply hoare_pure. }
  intros bag _.
  eapply in_state_context_bind with (R := λ _, True).
  { apply hoare_resolve_targets_resolving. by intros []. }
  intros targets _. apply in_state_context_with.
  apply (run_reproduce_targets (λ _, True)); try done.
  by intros [].
Qed.

(** *** Failures before anything is reproduced *)

(** X8.  A forward traversal reads the graph and makes no copy of it:
    the graph objects are, all of them, as they were. *)
Theorem forward_makes_no_copy G stages n downstream ibc kwargs σ :
  truthy downstream = false →
  graphs (_reproduce_stages G stages n downstream ibc kwargs σ).1 = graphs σ.
Proof.
  intros Hd. unfold _reproduce_stages, derive_pipeline. rewrite Hd.
  unfold bind at 1 2, graph_read.
  destruct (graphs σ !! G) as [g|]; simpl; [|done].
  apply keeps_graphs_reproduce_pipeline.
Qed.


(** X10.  A plain target that cannot be loaded makes [reproduce] raise
    the loader's own exception, not a [ReproductionError]: the state
    context is entered and left around the attempt, and no graph is
    built and no stage reproduced. *)
Theorem unloadable_target self t kwargs σ w ex :
  t ≠ "" →
  Stage_load (Some t) (state_enter self (world σ)) = (w, Raise ex) →
  reproduce self (Some t) false false false kwargs σ
  = (mkState (state_exit self w) (graphs σ)
       (trace σ
          ++ (if truthy (kwargs_get kwargs "interactive") then []
              else [ConfigRead])
          ++ [StateEnter; StageLoad (Some t); StateExit]),
     Raise ex).
Proof.
  intros Ht Hload. unfold reproduce. simpl.
  rewrite bool_decide_eq_false_2 by done. simpl.
  destruct (truthy (kwargs_get kwargs "interactive")); simpl;
    unfold bind, emit, pure, resolve_targets, with_; simpl;
    unfold bind, _reproduce, bind, call; simpl; rewrite Hload; simpl;
    by rewrite <- ?app_assoc.
Qed.

End RunStructure.

(** ** What a run returns *)

Section RunResult.
Context {W Stage : Type} `{!StageClass W Stage}.
Implicit Types (σ : state W Stage) (self : Repo W Stage).
Implicit Types (kwargs bag : gmap string pyval).

(** A computation that, when it returns, returns [base] followed by
    the stages it has persisted. *)
Definition returns_persisted (base : list Stage) (m : M W Stage (list Stage))
  : Prop :=
  ∀ σ σ' r, m σ = (σ', Ok r) →
    ∃ evs, trace σ' = trace σ ++ evs ∧ r = base ++ persisted evs.

Definition no_dump (ev : event Stage) : Prop := ∀ st, ev ≠ StageDump st.

Lemma persisted_no_dump (evs : list (event Stage)) :
  Forall no_dump evs → persisted evs = [].
Proof.
  induction 1 as [|ev evs Hev _ IH]; [done|].
  unfold persisted in *. simpl. destruct ev; try done. by destruct (Hev stage).
Qed.

Lemma returns_persisted_bind {T} (m : M W Stage T)
    (k : T → M W Stage (list Stage)) (R : T → Prop) (base : list Stage) :
  hoare no_dump m R → (∀ v, R v → returns_persisted base (k v)) →
  returns_persisted base (bind m k).
Proof.
  intros Hm Hk σ σ' r. unfold bind.
  destruct (Hm σ) as [(evs1 & Htr1 & Hevs1) HR].
  destruct (m σ) as [σ1 [v|ex]]; [|discriminate]. simpl in *.
  intros Hrun. destruct (Hk v (HR v eq_refl) _ _ _ Hrun) as (evs2 & Htr2 & ->).
  exists (evs1 ++ evs2). split; [by rewrite Htr2, Htr1, app_assoc|].
  by rewrite persisted_app, (persisted_no_dump _ Hevs1).
Qed.

Lemma reproduce_one_persisted self target single_item kwargs :
  truthy (kwargs_get kwargs "dry") = false →
  returns_persisted [] (_reproduce self target single_item kwargs).
Proof.
  intros Hdry. unfold _reproduce.
  eapply returns_persisted_bind; [by apply hoare_call|]. intros stage _.
  eapply returns_persisted_bind; [by apply hoare_call|]. intros g _.
  eapply returns_persisted_bind; [apply hoare_graph_new|]. intros G _.
  eapply returns_persisted_bind; [apply hoare_graph_read|]. intros Gv _.
  destruct (truthy single_item).
  - intros σ σ' r Hrun.
    destruct (reproduce_stage_persisted _ _ _ _ _ _ Hdry Hrun)
      as (evs & Htr & Hevs).
    by exists evs.
  - simpl. unfold _reproduce_stages.
    eapply returns_persisted_bind; [apply hoare_derive_pipeline|].
    intros pipeline _ σ σ' r Hrun.
    eapply reproduce_pipeline_persisted; [|exact Hrun].
    unfold kwargs_get in *. by rewrite !lookup_delete_ne.
Qed.

Lemma reproduce_targets_persisted self targets kwargs :
  truthy (kwargs_get kwargs "dry") = false →
  ∀ ret, returns_persisted ret (reproduce_targets self targets kwargs ret).
Proof.
  intros Hdry. induction targets as [|t targets IH]; intros ret σ σ' r; simpl.
  - intros [= <- <-]. exists []. by rewrite !app_nil_r.
  - unfold bind at 1.
    destruct (_reproduce self t _ _ σ) as [σ1 [reproduced1|ex]] eqn:Hone;
      [|discriminate].
    intros Hrest.
    destruct (reproduce_one_persisted self t (kwargs_get kwargs "single_item")
                (delete "single_item" kwargs)
                ltac:(unfold kwargs_get in *; by rewrite lookup_delete_ne)
                _ _ _ Hone) as (evs1 & Htr1 & ->).
    destruct (IH _ _ _ _ Hrest) as (evs2 & Htr2 & ->).
    exists (evs1 ++ evs2). split; [by rewrite Htr2, Htr1, app_assoc|].
    simpl. by rewrite persisted_app, app_assoc.
Qed.

(** X12.  Outside dry mode, a run that returns has persisted exactly
    the stages it returns, in the order in which it returns them. *)
Theorem run_returns_what_it_persisted self target recursive pipeline
    all_pipelines kwargs σ σ' r :
  truthy (kwargs_get kwargs "dry") = false →
  reproduce self target recursive pipeline all_pipelines kwargs σ = (σ', Ok r) →
  ∃ evs, trace σ' = trace σ ++ evs ∧ r = persisted evs.
Proof.
  intros Hdry.
  cut (returns_persisted []
         (reproduce self target recursive pipeline all_pipelines kwargs)).
  { intros Hr Hrun. by destruct (Hr _ _ _ Hrun) as (evs & ? & ?); exists evs. }
  unfold reproduce. destruct (_ && _); [by intros ???|].
  eapply returns_persisted_bind
    with (R := λ bag, truthy (kwargs_get bag "dry") = false).
  { destruct (negb _); [|by apply hoare_pure].
    eapply hoare_bind; [by apply hoare_emit|]. intros _ _.
    apply hoare_pure. unfold kwargs_get in *. by rewrite lookup_insert_ne. }
  intros bag Hbag.
  eapply returns_persisted_bind.
  { apply hoare_resolve_targets_resolving. by intros []. }
  intros targets _ σ0 σ1 r'. unfold with_.
  destruct (reproduce_targets self targets bag [] _) as [σ2 r2] eqn:Hbody.
  intros [= <- ->].
  destruct (reproduce_targets_persisted self targets bag Hbag [] _ _ _ Hbody)
    as (evs & Htr & ->).
  exists ([StateEnter] ++ evs ++ [StateExit]). simpl in *.
  split; [by rewrite Htr, <- !app_assoc|].
  by rewrite !persisted_app, app_nil_r.
Qed.
End RunResult.

(** ** The preorder of the search, on any graph *)

Section DfsPreorder.
Variable adj : adjacency.
Variable depth_limit : nat.
Variable source : node.
Hypothesis Hclosed : closed adj.
Hypothesis Hlimit : length (dict_keys adj) ≤ depth_limit.
Hypothesis Hsource : is_Some (dict_get adj source).

(** [P] lists the nodes yielded so far, in order.  A visited node that
    is no longer on the stack has all its neighbours visited. *)
Record walk_inv (V : gset node) (S : list frame) (P : list node) : Prop := {
  walk_nodup : NoDup P;
  walk_visited : ∀ x, x ∈ V ↔ x ∈ P;
  walk_stack_nodup : NoDup (stack_nodes S);
  walk_stack_visited : ∀ x, x ∈ stack_nodes S → x ∈ V;
  walk_frames :
    Forall (λ f : frame, ∃ seen, dict_get adj f.1.1 = Some (seen ++ f.2)
                                 ∧ ∀ c, c ∈ seen → c ∈ V) S;
  walk_done :
    ∀ x, x ∈ V → x ∉ stack_nodes S → ∀ d, edge adj x d → d ∈ V;
  walk_depths : depths depth_limit S;
  walk_reach : ∀ x, x ∈ V → rtc (edge adj) source x;
}.

Lemma walk_pop V n d rest P :
  walk_inv V ((n, d, []) :: rest) P → walk_inv V rest P.
Proof.
  intros [Hnd Hv Hsnd Hsv Hf Hdone Hd Hr].
  unfold stack_nodes in *. csimpl in *.
  apply NoDup_cons in Hsnd as [Hn Hsnd].
  split; try done.
  - intros x Hx. apply Hsv. by right.
  - by inversion Hf.
  - intros x Hx Hstack c Hedge.
    destruct (decide (x = n)) as [->|Hne].
    + apply Forall_cons_1 in Hf as [(seen & Hg & Hseen) _]. simpl in *.
      rewrite app_nil_r in Hg. destruct Hedge as (nbrs & Hg' & Hin).
      rewrite Hg in Hg'. injection Hg' as <-. auto.
    + eapply Hdone; [done| |done]. set_solver.
  - by destruct Hd.
Qed.

Lemma walk_nontree V n d c cs rest P :
  c ∈ V →
  walk_inv V ((n, d, c :: cs) :: rest) P → walk_inv V ((n, d, cs) :: rest) P.
Proof.
  intros HcV [Hnd Hv Hsnd Hsv Hf Hdone Hd Hr].
  split; try done.
  apply Forall_cons_1 in Hf as [(seen & Hg & Hseen) Hf].
  apply Forall_cons; split; [|done]. simpl in *.
  exists (seen ++ [c]). split; [by rewrite <- app_assoc|].
  intros x [Hx|Hx%list_elem_of_singleton]%elem_of_app; [auto|by subst].
Qed.

Lemma walk_top_edge V n d c cs rest P :
  walk_inv V ((n, d, c :: cs) :: rest) P → edge adj n c.
Proof.
  intros [_ _ _ _ Hf _ _ _].
  apply Forall_cons_1 in Hf as [(seen & Hg & _) _]. simpl in *.
  eexists. split; [exact Hg|]. set_solver.
Qed.

Lemma walk_depth_left V n d c cs rest P :
  c ∉ V → walk_inv V ((n, d, c :: cs) :: rest) P → 1 < d.
Proof.
  intros HcV HI. pose proof (walk_top_edge _ _ _ _ _ _ _ HI) as He.
  pose proof HI as [_ _ Hsnd Hsv _ _ [Hd _] Hr]. simpl in Hd.
  assert (length (c :: stack_nodes ((n, d, c :: cs) :: rest)) ≤ depth_limit)
    as Hlen.
  { apply (stack_fits adj depth_limit Hlimit).
    - apply NoDup_cons. split; [|done]. intros Hin. by apply HcV, Hsv.
    - intros x [->|Hx]%elem_of_cons; [by eapply Hclosed|].
      apply (reach_is_node adj source Hclosed Hsource), Hr, Hsv, Hx. }
  unfold stack_nodes in Hlen. simpl in Hlen. rewrite !length_fmap in Hlen. lia.
Qed.

Lemma walk_push V n d c cs gc rest P :
  c ∉ V → 1 < d → dict_get adj c = Some gc →
  walk_inv V ((n, d, c :: cs) :: rest) P →
  walk_inv ({[c]} ∪ V) ((c, d - 1, gc) :: (n, d, cs) :: rest) (P ++ [c]).
Proof.
  intros HcV Hdepth Hgc HI.
  pose proof (walk_top_edge _ _ _ _ _ _ _ HI) as He.
  destruct HI as [Hnd Hv Hsnd Hsv Hf Hdone Hd Hr].
  assert (stack_nodes ((c, d - 1, gc) :: (n, d, cs) :: rest)
          = c :: stack_nodes ((n, d, c :: cs) :: rest)) as Hstack by done.
  split.
  - apply NoDup_app. split; [done|]. split; [|apply NoDup_singleton].
    intros x Hx ->%list_elem_of_singleton. by apply HcV, Hv.
  - intros x. rewrite elem_of_union, elem_of_singleton, elem_of_app,
      list_elem_of_singleton, Hv. tauto.
  - rewrite Hstack. apply NoDup_cons. split; [|done].
    intros Hin. by apply HcV, Hsv.
  - rewrite Hstack. intros x [->|Hx]%elem_of_cons; [set_solver|].
    apply elem_of_union. right. by apply Hsv.
  - apply Forall_cons_1 in Hf as [(seen & Hg & Hseen) Hf]. simpl in *.
    apply Forall_cons; split; [|apply Forall_cons; split].
    + exists []. split; [done|]. intros x Hx. by apply elem_of_nil in Hx.
    + exists (seen ++ [c]). split; [by rewrite <- app_assoc|]. set_solver.
    + eapply Forall_impl; [exact Hf|].
      intros f (seen' & Hg' & Hseen'). exists seen'. set_solver.
  - rewrite Hstack. intros x Hx Hstk e Hedge.
    apply not_elem_of_cons in Hstk as [Hxc Hstk].
    apply elem_of_union. right. eapply Hdone; [|exact Hstk|exact Hedge].
    set_solver.
  - destruct Hd as [Hd Hds]. simpl in *. repeat split; [lia|lia|done].
  - intros x [->%elem_of_singleton|Hx]%elem_of_union; [|auto].
    eapply rtc_r; [|exact He]. apply Hr, Hsv. apply list_elem_of_here.
Qed.

Lemma select_forward_pop rest parent evs :
  select_nodes forward (pop_event rest parent ++ evs)
  = select_nodes forward evs.
Proof.
  destruct rest as [|[[p d] cs] rest]; [done|]. simpl.
  by rewrite select_nodes_skip.
Qed.

Lemma dfs_while_preorder (fuel : nat) :
  ∀ V S P evs e,
    walk_inv V S P → dfs_while fuel adj V S = Some (evs, e) →
    ∃ V', e = Finished V' ∧ walk_inv V' [] (P ++ select_nodes forward evs).
Proof.
  induction fuel as [|fuel IH]; intros V S P evs e HI Hrun; [done|].
  simpl in Hrun.
  destruct S as [|[[parent depth_now] [|child children]] rest].
  - injection Hrun as <- <-. exists V. split; [done|]. by rewrite app_nil_r.
  - destruct (dfs_while fuel adj V rest) as [[evs' e']|] eqn:Hrest; [|done].
    simpl in Hrun. injection Hrun as <- <-.
    apply walk_pop in HI. destruct (IH _ _ _ _ _ HI Hrest) as (V' & -> & HI').
    exists V'. split; [done|]. by rewrite select_forward_pop.
  - case_decide as Hin.
    + destruct (dfs_while fuel adj V ((parent, depth_now, children) :: rest))
        as [[evs' e']|] eqn:Hrest; [|done].
      simpl in Hrun. injection Hrun as <- <-.
      eapply walk_nontree in HI; [|done].
      destruct (IH _ _ _ _ _ HI Hrest) as (V' & -> & HI').
      exists V'. split; [done|]. by rewrite select_nodes_skip.
    + pose proof (walk_depth_left _ _ _ _ _ _ _ Hin HI) as Hdepth.
      pose proof (walk_top_edge _ _ _ _ _ _ _ HI) as He.
      case_decide; [|done].
      destruct (Hclosed _ _ He) as [gc Hgc]. rewrite Hgc in Hrun.
      destruct (dfs_while fuel adj ({[child]} ∪ V)
                  ((child, depth_now - 1, gc)
                     :: (parent, depth_now, children) :: rest))
        as [[evs' e']|] eqn:Hrest; [|done].
      simpl in Hrun. injection Hrun as <- <-.
      eapply walk_push in HI; [|done..].
      destruct (IH _ _ _ _ _ HI Hrest) as (V' & -> & HI').
      exists V'. split; [done|].
      by rewrite select_nodes_take, <- app_assoc in *.
Qed.

(** What the preorder from [source] yields: the source first, then,
    once each, the nodes that can be reached from it. *)
Lemma dfs_preorder_source (fuel : nat) (evs : list labeled_edge) (e : dfs_end) :
  dfs_starts fuel adj depth_limit [source] ∅ = Some (evs, e) →
  ∃ V rest,
    e = Finished V
    ∧ select_nodes forward evs = source :: rest
    ∧ NoDup (source :: rest)
    ∧ ∀ x, x ∈ source :: rest ↔ rtc (edge adj) source x.
Proof.
  simpl. case_decide as Hin; [set_solver|].
  destruct Hsource as [children Hchildren]. rewrite Hchildren.
  destruct (dfs_while fuel adj ({[source]} ∪ ∅) [(source, depth_limit, children)])
    as [[evs' e']|] eqn:Hrun; [|done].
  simpl. intros Hres.
  assert (walk_inv ({[source]} ∪ ∅) [(source, depth_limit, children)] [source])
    as HI.
  { split.
    - apply NoDup_singleton.
    - intros x. set_solver.
    - apply NoDup_singleton.
    - intros x. unfold stack_nodes. simpl. set_solver.
    - apply Forall_singleton. exists []. split; [done|].
      intros x Hx. by apply elem_of_nil in Hx.
    - intros x Hx Hstack. unfold stack_nodes in Hstack. simpl in Hstack.
      set_solver.
    - simpl. split; [lia|done].
    - intros x Hx. assert (x = source) as -> by set_solver. done. }
  destruct (dfs_while_preorder _ _ _ _ _ _ HI Hrun) as (V' & -> & HI').
  injection Hres as <- <-.
  exists V', (select_nodes forward evs'). split; [done|].
  destruct HI' as [Hnd Hv _ _ _ Hdone _ Hr]. simpl in *.
  assert (select_nodes forward
            ((source, source, forward) :: evs' ++ [(source, source, reverse)])
          = source :: select_nodes forward evs') as Heq.
  { rewrite select_nodes_take, select_nodes_app.
    by rewrite (select_nodes_skip forward reverse), app_nil_r. }
  repeat split; try done.
  - intros Hx. by apply Hr, Hv.
  - revert x. apply rtc_ind_r.
    + apply list_elem_of_here.
    + intros y z _ Hz Hy. apply Hv. eapply Hdone; [by apply Hv| |exact Hz].
      unfold stack_nodes. simpl. apply not_elem_of_nil.
Qed.
End DfsPreorder.

Lemma dfs_preorder_nodes_reachable {A : Type} (G : DiGraph A) (n : node) :
  well_formed G → n ∈ dict_keys (_node G) →
  ∃ rest,
    dfs_preorder_nodes G (Some n) = mkGen (n :: rest) None
    ∧ NoDup (n :: rest)
    ∧ ∀ x, x ∈ n :: rest ↔ rtc (edge (_succ G)) n x.
Proof.
  intros [Hkeys Hclosed] Hn.
  destruct (dfs_labeled_edges_run_total G (Some n)) as [[evs e] Hrun].
  assert (is_Some (dict_get (_succ G) n)) as Hsource.
  { apply dict_get_keys_Some. by rewrite Hkeys. }
  assert (length (dict_keys (_succ G)) ≤ length (_node G)) as Hlimit.
  { rewrite Hkeys. unfold dict_keys. by rewrite length_fmap. }
  destruct (dfs_preorder_source _ _ _ Hclosed Hlimit Hsource _ _ _ Hrun)
    as (V & rest & -> & Hsel & Hnd & Hreach).
  exists rest. split; [|done].
  unfold dfs_preorder_nodes, dfs_labeled_edges, select. rewrite Hrun. simpl.
  by rewrite Hsel.
Qed.

(** ** The reversed copy *)

Lemma edge_app_empty (adj : adjacency) (n a b : node) :
  edge (adj ++ [(n, [])]) a b ↔ edge adj a b.
Proof.
  unfold edge. setoid_rewrite dict_get_app.
  destruct (dict_get adj a) as [nbrs|]; [done|]. simpl.
  split; [|by intros (? & ? & ?)].
  intros (nbrs & Hg & Hin). case_decide; [|done]. injection Hg as <-.
  by apply elem_of_nil in Hin.
Qed.

Lemma edge_set_add (adj : adjacency) (u v a b : node) :
  edge (dict_set adj u (nbr_add v (default [] (dict_get adj u)))) a b
  ↔ edge adj a b ∨ (a = u ∧ b = v).
Proof.
  unfold edge. setoid_rewrite dict_get_set.
  destruct (decide (u = a)) as [->|Hne].
  - assert (∀ x, x ∈ nbr_add v (default [] (dict_get adj a))
                 ↔ x ∈ default [] (dict_get adj a) ∨ x = v) as Hadd.
    { intros x. unfold nbr_add. case_decide; set_solver. }
    split.
    + intros (nbrs & [= <-] & Hin). apply Hadd in Hin as [Hin| ->]; [|by right].
      left. destruct (dict_get adj a) as [old|]; [by exists old|].
      by apply elem_of_nil in Hin.
    + intros [(nbrs & Hg & Hin)|[_ ->]]; eexists; (split; [done|]);
        apply Hadd; [|by right]. left. by rewrite Hg.
  - split; [by left|]. intros [?|[? _]]; [done|congruence].
Qed.

Lemma dict_get_elem_NoDup {V : Type} (d : list (node * V)) (k : node) (v : V) :
  NoDup (dict_keys d) → (k, v) ∈ d → dict_get d k = Some v.
Proof.
  unfold dict_keys. induction d as [|[k' v'] d IH]; simpl.
  - intros _ H. by apply elem_of_nil in H.
  - intros [Hk Hnd]%NoDup_cons [[= -> ->]|Hin]%elem_of_cons.
    + by rewrite decide_True.
    + rewrite decide_False; [by apply IH|].
      intros ->. apply Hk. apply list_elem_of_fmap. by exists (k, v).
Qed.

Section ReversedCopy.
Context {A : Type}.
Implicit Types (G : DiGraph A).

(** The two adjacency dictionaries describe the same edges. *)
Definition consistent G : Prop :=
  dict_keys (_pred G) = dict_keys (_succ G)
  ∧ ∀ u v, edge (_pred G) v u ↔ edge (_succ G) u v.

Lemma add_node_succ_edges n attr G a b :
  edge (_succ (add_node n attr G)) a b ↔ edge (_succ G) a b.
Proof.
  unfold add_node. destruct (dict_get (_succ G) n).
  - by destruct attr.
  - simpl. apply edge_app_empty.
Qed.

Lemma add_node_consistent n attr G :
  consistent G → consistent (add_node n attr G).
Proof.
  intros [Hkeys Hedges]. unfold add_node.
  destruct (dict_get (_succ G) n); [by destruct attr|].
  split; simpl.
  - unfold dict_keys in *. by rewrite !fmap_app, Hkeys.
  - intros u v. by rewrite !edge_app_empty.
Qed.

Lemma add_edge_parts u v G :
  ∃ G2,
    add_edge u v G
    = mkDiGraph (_node G2)
        (dict_set (_succ G2) u (nbr_add v (default [] (dict_get (_succ G2) u))))
        (dict_set (_pred G2) v (nbr_add u (default [] (dict_get (_pred G2) v))))
    ∧ (consistent G → consistent G2)
    ∧ (∀ a b, edge (_succ G2) a b ↔ edge (_succ G) a b)
    ∧ is_Some (dict_get (_succ G2) u) ∧ is_Some (dict_get (_succ G2) v)
    ∧ ∀ x, is_Some (dict_get (_succ G) x) → is_Some (dict_get (_succ G2) x).
Proof.
  unfold add_edge.
  set (G1 := match dict_get (_succ G) u with
             | None => add_node u None G | Some _ => G end).
  set (G2 := match dict_get (_succ G1) v with
             | None => add_node v None G1 | Some _ => G1 end).
  exists G2. split; [done|].
  assert (∀ x, is_Some (dict_get (_succ G) x) → is_Some (dict_get (_succ G1) x))
    as Hk1.
  { intros x. unfold G1. destruct (dict_get (_succ G) u); [done|].
    apply add_node_keeps_nodes. }
  assert (∀ x, is_Some (dict_get (_succ G1) x) → is_Some (dict_get (_succ G2) x))
    as Hk2.
  { intros x. unfold G2. destruct (dict_get (_succ G1) v); [done|].
    apply add_node_keeps_nodes. }
  split; [|split; [|split; [|split]]].
  - intros HG. unfold G2, G1.
    destruct (dict_get (_succ G) u);
      destruct (dict_get (_succ _) v); auto using add_node_consistent.
  - intros a b. unfold G2, G1.
    destruct (dict_get (_succ G) u);
      destruct (dict_get (_succ _) v);
      by rewrite ?add_node_succ_edges.
  - apply Hk2. unfold G1.
    destruct (dict_get (_succ G) u) eqn:Hu; [by rewrite Hu|].
    apply add_node_is_node.
  - unfold G2. destruct (dict_get (_succ G1) v) eqn:Hv; [by rewrite Hv|].
    apply add_node_is_node.
  - intros x Hx. by apply Hk2, Hk1.
Qed.

Lemma add_edge_succ_edges u v G a b :
  edge (_succ (add_edge u v G)) a b ↔ edge (_succ G) a b ∨ (a = u ∧ b = v).
Proof.
  destruct (add_edge_parts u v G) as (G2 & -> & _ & Hedges & _). simpl.
  by rewrite edge_set_add, Hedges.
Qed.

Lemma add_edge_keeps_nodes u v G x :
  is_Some (dict_get (_succ G) x) → is_Some (dict_get (_succ (add_edge u v G)) x).
Proof.
  destruct (add_edge_parts u v G) as (G2 & -> & _ & _ & _ & _ & Hkeep). simpl.
  intros Hx. rewrite dict_get_set. case_decide; [by eexists|by apply Hkeep].
Qed.

Lemma add_edge_consistent u v G :
  consistent G → consistent (add_edge u v G).
Proof.
  intros HG.
  destruct (add_edge_parts u v G) as (G2 & -> & HG2 & _ & Hu & Hv & _).
  destruct (HG2 HG) as [Hkeys Hedges]. split; simpl.
  - destruct Hu as [? Hu], Hv as [? Hv].
    rewrite !dict_keys_set; [done|by eapply dict_get_Some_keys|].
    rewrite Hkeys. by eapply dict_get_Some_keys.
  - intros a b. rewrite !edge_set_add, Hedges. tauto.
Qed.

Lemma graph_of_facts (nodes : list (node * option A))
    (deps : list (node * node)) :
  consistent (graph_of nodes deps)
  ∧ (∀ a b, edge (_succ (graph_of nodes deps)) a b ↔ (a, b) ∈ deps)
  ∧ ∀ n, n ∈ dict_keys nodes →
         is_Some (dict_get (_succ (graph_of nodes deps)) n).
Proof.
  unfold graph_of.
  set (with_nodes := foldl (λ H '(n, a), add_node n a H) empty_graph nodes).
  assert (consistent with_nodes
          ∧ (∀ a b, ¬ edge (_succ with_nodes) a b)
          ∧ ∀ n, n ∈ dict_keys nodes → is_Some (dict_get (_succ with_nodes) n))
    as (Hc & He & Hn).
  { unfold with_nodes.
    cut (∀ G, consistent G → (∀ a b, ¬ edge (_succ G) a b) →
           consistent (foldl (λ H '(n, a), add_node n a H) G nodes)
           ∧ (∀ a b, ¬ edge (_succ (foldl (λ H '(n, a), add_node n a H) G nodes))
                       a b)
           ∧ ∀ n, n ∈ dict_keys nodes ∨ is_Some (dict_get (_succ G) n) →
                  is_Some (dict_get
                             (_succ (foldl (λ H '(n, a), add_node n a H) G nodes))
                             n)).
    { intros Hcut. destruct (Hcut empty_graph) as (Hc & He & Hn).
      - split; [done|]. intros u v. split; intros (? & ? & ?); discriminate.
      - intros a b (? & ? & ?). discriminate.
      - split; [exact Hc|]. split; [exact He|].
        intros n Hin. apply Hn. by left. }
    induction nodes as [|[n a] nodes IH]; intros G HG Hno; simpl.
    { split; [exact HG|]. split; [exact Hno|].
      intros n [Hn|Hn]; [|done]. by apply elem_of_nil in Hn. }
    destruct (IH (add_node n a G)) as (Hc & He & Hn).
    - by apply add_node_consistent.
    - intros x y. rewrite add_node_succ_edges. apply Hno.
    - split; [exact Hc|]. split; [exact He|].
      intros m [Hm|Hm]; apply Hn.
      + unfold dict_keys in Hm. csimpl in Hm.
        apply elem_of_cons in Hm as [->|Hm]; [|by left].
        right. apply add_node_is_node.
      + right. by apply add_node_keeps_nodes. }
  clearbody with_nodes.
  cut (∀ G, consistent G →
         consistent (foldl (λ H '(u, v), add_edge u v H) G deps)
         ∧ (∀ a b, edge (_succ (foldl (λ H '(u, v), add_edge u v H) G deps)) a b
                   ↔ edge (_succ G) a b ∨ (a, b) ∈ deps)
         ∧ ∀ n, is_Some (dict_get (_succ G) n) →
                is_Some (dict_get
                           (_succ (foldl (λ H '(u, v), add_edge u v H) G deps))
                           n)).
  { intros Hcut. destruct (Hcut with_nodes Hc) as (Hc' & Hedges & Hkeep).
    split; [exact Hc'|]. split.
    - intros a b. rewrite Hedges. split; [|by right].
      intros [Hedge|?]; [|done]. by destruct (He a b).
    - intros n Hin. by apply Hkeep, Hn. }
  induction deps as [|[u v] deps IH]; intros G HG; simpl.
  { split; [exact HG|]. split; [|done].
    intros a b. split; [by left|]. intros [?|Hin]; [done|].
    by apply elem_of_nil in Hin. }
  destruct (IH (add_edge u v G)) as (Hc' & He' & Hn').
  { by apply add_edge_consistent. }
  split; [exact Hc'|]. split.
  - intros a b. rewrite He', add_edge_succ_edges, elem_of_cons.
    split.
    + intros [[?|[-> ->]]|?]; auto.
    + intros [?|[[= -> ->]|?]]; auto.
  - intros n Hin. by apply Hn', add_edge_keeps_nodes.
Qed.

Lemma edges_spec G a b :
  NoDup (dict_keys (_succ G)) → (a, b) ∈ edges G ↔ edge (_succ G) a b.
Proof.
  intros Hnd. unfold edges. rewrite list_elem_of_bind. split.
  - intros ([u nbrs] & Hin & Hentry).
    apply list_elem_of_fmap in Hin as (v & [= -> ->] & Hv).
    exists nbrs. split; [by apply dict_get_elem_NoDup|done].
  - intros (nbrs & Hg & Hin). exists (a, nbrs).
    split; [|by apply dict_get_Some_elem].
    apply list_elem_of_fmap. by exists b.
Qed.

(** The reversed copy of a graph is a well-formed graph on the same
    nodes whose edges are those of the graph, turned around. *)
Lemma reversed_copy_facts G :
  NoDup (dict_keys (_succ G)) →
  well_formed (reverse_in_place (copy G))
  ∧ (∀ n, n ∈ dict_keys (_node G) →
          n ∈ dict_keys (_node (reverse_in_place (copy G))))
  ∧ ∀ a b, edge (_succ (reverse_in_place (copy G))) a b ↔ edge (_succ G) b a.
Proof.
  intros Hnd.
  destruct (graph_of_facts (_node G) (edges G)) as ([Hkeys Hflip] & Hedges & Hn).
  destruct (copy_well_formed G) as [Hwf Hclosed].
  change (graph_of (_node G) (edges G)) with (copy G) in *. simpl.
  assert (∀ a b, edge (_pred (copy G)) a b ↔ edge (_succ G) b a) as Hrev.
  { intros a b. by rewrite Hflip, Hedges, edges_spec. }
  split; [split|split]; simpl.
  - by rewrite Hkeys.
  - intros u v Hedge. simpl in Hedge. apply Hflip in Hedge as (nbrs & Hg & _).
    apply dict_get_keys_Some. rewrite Hkeys. by eapply dict_get_Some_keys.
  - intros n Hin. rewrite <- Hwf. destruct (Hn n Hin) as [? ?].
    by eapply dict_get_Some_keys.
  - exact Hrev.
Qed.
End ReversedCopy.

Section Downstream.
Context {W Stage : Type} `{!StageClass W Stage}.
Implicit Types (σ : state W Stage) (stages : gmap node Stage).
Implicit Types (kwargs : gmap string pyval) (g : DiGraph Stage).

(** X13.  A downstream traversal runs the loop over the starting node
    first and then over the nodes that depend on it, directly or not:
    each of them once, and no other node. *)
Theorem downstream_visits_dependents G g stages n downstream ibc kwargs σ :
  graphs σ !! G = Some g → truthy downstream = true →
  NoDup (dict_keys (_succ g)) → n ∈ dict_keys (_node g) →
  ∃ rest,
    _reproduce_stages G stages n downstream ibc kwargs σ
    = reproduce_pipeline stages ibc (n :: rest) None kwargs []
        (mkState (world σ) (graphs σ ++ [reverse_in_place (copy g)]) (trace σ))
    ∧ NoDup (n :: rest)
    ∧ ∀ x, x ∈ n :: rest ↔ rtc (λ a b, edge (_succ g) b a) n x.
Proof.
  intros HG Hd Hnd Hn.
  destruct (reversed_copy_facts g Hnd) as (Hwf & Hnodes & Hedges).
  destruct (dfs_preorder_nodes_reachable _ n Hwf (Hnodes n Hn))
    as (rest & Hgen & Hnodup & Hreach).
  exists rest. split; [|split; [done|]].
  - unfold _reproduce_stages, bind at 1.
    by rewrite (derive_pipeline_downstream _ _ _ _ _ HG Hd), Hgen.
  - intros x. rewrite Hreach. split; intros Hx.
    + eapply rtc_subrel; [|exact Hx]. intros a b. apply Hedges.
    + eapply rtc_subrel; [|exact Hx]. intros a b. apply Hedges.
Qed.
End Downstream.

(** ** The further properties on concrete runs *)

(** A loader that knows no stage file at all. *)
Definition toy_class_without_files : StageClass (list string) toy_stage := {|
  locked := toy_locked;
  relpath := toy_path;
  path := toy_path;
  stage_reproduce := toy_reproduce;
  stage_dump := toy_dump;
  Stage_load := λ _ w, (w, Raise (OtherException "StageFileDoesNotExistError"));
|}.

(** The chain, where B has no stage attached. *)
Definition toy_chain_gap : DiGraph toy_stage :=
  graph_of [("A", Some (changed "A")); ("B", None); ("C", Some (changed "C"))]
           [("B", "A"); ("C", "B")].

(** X1 on the chain where B has no stage: A is reproduced, then the
    lookup of B fails. *)
Lemma node_without_stage_raises_key_error_witness :
  let stages := get_node_attributes toy_chain_gap in
  let σ1 := (reproduce_pipeline stages (PyBool false) ["A"] None ∅ []
               (start [])).1 in
  reproduce_pipeline stages (PyBool false) ["A"] None ∅ [] (start [])
    = (σ1, Ok [changed "A"])
  ∧ stages !! "B" = None
  ∧ reproduce_pipeline stages (PyBool false) (["A"] ++ "B" :: ["C"]) None ∅ []
      (start [])
    = (σ1, Raise (KeyError "B"))
  ∧ reproduced_paths (trace σ1) = ["A"].
Proof.
  intros stages σ1.
  assert (reproduce_pipeline stages (PyBool false) ["A"] None ∅ [] (start [])
          = (σ1, Ok [changed "A"])) as Hpre by (vm_compute; reflexivity).
  assert (stages !! "B" = None) as HB by (vm_compute; reflexivity).
  split; [exact Hpre|]. split; [exact HB|]. split; [|vm_compute; reflexivity].
  exact (node_without_stage_raises_key_error stages (PyBool false) ["A"] "B"
           ["C"] None ∅ (start []) σ1 [changed "A"] Hpre HB).
Defined.


(** X3 on the chain where every stage has changed. *)
Lemma no_cascade_without_ignore_build_cache_witness :
  let G := toy_chain (changed "A") (changed "B") (changed "C") in
  let stages := get_node_attributes G in
  truthy (PyBool false) = false
  ∧ ∃ evs,
      trace (reproduce_pipeline stages (PyBool false) ["A"; "B"; "C"] None ∅ []
               (start [])).1
        = trace (start []) ++ evs
      ∧ Forall (λ ev, ∀ st bag, ev = StageReproduce st bag → bag = ∅) evs.
Proof.
  intros G stages. split; [reflexivity|].
  exact (no_cascade_without_ignore_build_cache stages (PyBool false)
           ["A"; "B"; "C"] None eq_refl ∅ [] (start [])).
Defined.

(** X4 on a dry run over the chain, every stage of which has changed. *)
Lemma dry_run_never_persists_witness :
  let G := toy_chain (changed "A") (changed "B") (changed "C") in
  let self := toy_repo G ∅ in
  let bag : gmap string pyval := {["dry" := PyBool true]} in
  truthy (kwargs_get bag "dry") = true
  ∧ ∃ evs,
      trace (reproduce self (Some "C") false false false bag (start [])).1
        = trace (start []) ++ evs
      ∧ Forall (λ ev, ∀ st, ev ≠ StageDump st) evs.
Proof.
  intros G self bag.
  assert (truthy (kwargs_get bag "dry") = true) as Hdry
    by (vm_compute; reflexivity).
  split; [exact Hdry|].
  exact (dry_run_never_persists self (Some "C") false false false bag
           (start []) Hdry).
Defined.

(** X6 on the chain, with both named options in the bag. *)
Lemma traversal_consumes_named_options_witness :
  let G := toy_chain (changed "A") (changed "B") (changed "C") in
  let self := toy_repo G ∅ in
  let bag : gmap string pyval :=
    {["downstream" := PyBool false; "ignore_build_cache" := PyBool true]} in
  truthy (PyBool false) = false
  ∧ ∃ evs,
      trace (_reproduce self (Some "C") (PyBool false) bag (start [])).1
        = trace (start []) ++ evs
      ∧ Forall (λ ev, ∀ st bag', ev = StageReproduce st bag' →
                  bag' !! "downstream" = None
                  ∧ bag' !! "ignore_build_cache" = None) evs.
Proof.
  intros G self bag. split; [reflexivity|].
  exact (traversal_consumes_named_options self (Some "C") (PyBool false) bag
           (start []) eq_refl).
Defined.

(** X8 on the chain. *)
Lemma forward_makes_no_copy_witness :
  let G := toy_chain (changed "A") (changed "B") (changed "C") in
  truthy (PyBool false) = false
  ∧ graphs (_reproduce_stages 0 (get_node_attributes G) "C" (PyBool false)
              (PyBool true) ∅ (start [G])).1
    = [G].
Proof.
  intros G. split; [reflexivity|].
  exact (forward_makes_no_copy 0 (get_node_attributes G) "C" (PyBool false)
           (PyBool true) ∅ (start [G]) eq_refl).
Defined.


(** X10 with a loader that finds no stage file. *)
Lemma unloadable_target_witness :
  let G := toy_chain (changed "A") (changed "B") (changed "C") in
  let self := toy_repo G ∅ in
  "missing.dvc" ≠ ""
  ∧ Stage_load (StageClass := toy_class_without_files) (Some "missing.dvc")
      (state_enter self (world (start [])))
    = ([], Raise (OtherException "StageFileDoesNotExistError"))
  ∧ reproduce (StageClass0 := toy_class_without_files) self
      (Some "missing.dvc") false false false ∅ (start [])
    = (mkState [] []
         [ConfigRead; StateEnter; StageLoad (Some "missing.dvc"); StateExit],
       Raise (OtherException "StageFileDoesNotExistError")).
Proof.
  intros G self.
  assert ("missing.dvc" ≠ "") as Hne by discriminate.
  split; [exact Hne|]. split; [reflexivity|].
  exact (unloadable_target (StageClass0 := toy_class_without_files) self
           "missing.dvc" ∅ (start []) []
           (OtherException "StageFileDoesNotExistError") Hne eq_refl).
Defined.


(** X12 on the chain where only A has changed. *)
Lemma run_returns_what_it_persisted_witness :
  let G := toy_chain (changed "A") (unchanged "B") (unchanged "C") in
  let self := toy_repo G ∅ in
  let run := reproduce self (Some "C") false false false ∅ (start []) in
  truthy (kwargs_get ∅ "dry") = false
  ∧ run = (run.1, Ok [changed "A"])
  ∧ ∃ evs, trace run.1 = trace (start []) ++ evs
           ∧ [changed "A"] = persisted evs.
Proof.
  intros G self run.
  assert (run = (run.1, Ok [changed "A"])) as Hrun by (vm_compute; reflexivity).
  split; [reflexivity|]. split; [exact Hrun|].
  exact (run_returns_what_it_persisted self (Some "C") false false false ∅
           (start []) run.1 [changed "A"] eq_refl Hrun).
Defined.

(** X13 on the diamond, started at A. *)
Lemma downstream_visits_dependents_witness :
  let G := toy_diamond in
  graphs (start [G]) !! 0 = Some G
  ∧ truthy (PyBool true) = true
  ∧ NoDup (dict_keys (_succ G))
  ∧ "A" ∈ dict_keys (_node G)
  ∧ ∃ rest,
      _reproduce_stages 0 (get_node_attributes G) "A" (PyBool true)
        (PyBool false) ∅ (start [G])
      = reproduce_pipeline (get_node_attributes G) (PyBool false) ("A" :: rest)
          None ∅ []
          (mkState [] ([G] ++ [reverse_in_place (copy G)]) [])
      ∧ NoDup ("A" :: rest)
      ∧ ∀ x, x ∈ "A" :: rest ↔ rtc (λ a b, edge (_succ G) b a) "A" x.
Proof.
  intros G.
  assert (NoDup (dict_keys (_succ G))) as Hnd.
  { apply (bool_decide_unpack _). vm_compute. exact I. }
  assert ("A" ∈ dict_keys (_node G)) as HA.
  { apply list_elem_of_In. vm_compute. auto. }
  split; [reflexivity|]. split; [reflexivity|]. split; [exact Hnd|].
  split; [exact HA|].
  exact (downstream_visits_dependents 0 G (get_node_attributes G) "A"
           (PyBool true) (PyBool false) ∅ (start [G]) eq_refl eq_refl Hnd HA).
Defined.
